(** * The expression simplifier of miasm

    A shallow embedding of [miasm/expression/simplifications.py]: the class
    [ExpressionSimplifier] with its pass table [expr_simp_cb], its cache
    [simplified_exprs], and the methods [enable_passes], [apply_simp],
    [expr_simp] and [expr_simp_wrapper].

    The expression classes, the rule callbacks, [fast_unify] and [Expr.visit]
    live in other modules of the project; they enter here through the
    contracts below. *)

From Stdlib Require Import ZArith.
From stdpp Require Import base option list sorting gmap sets strings.

Local Open Scope Z_scope.
Set Warnings "-clear-no-such-hyp".

(** ** Contracts of the collaborators *)

(** The expression node contract: the class of a node ([__class__]), its
    canonical form ([canonize]), its ordered children and the constructor
    call that rebuilds a node of the same class around new children.  Value
    equality [==] of nodes is structural and is rendered by Leibniz equality;
    the stable hash is rendered by [Countable]. *)
Class ExprNode (Expr Cls : Type) := {
  class_of : Expr → Cls;
  canonize : Expr → Expr;
  args_of : Expr → list Expr;
  with_args : Expr → list Expr → Expr;
}.

(** Levels of the [logging] module. *)
Definition logging_DEBUG : Z := 10.
Definition logging_WARNING : Z := 30.

(** Modelled from the spec: [fast_unify] of [expression_helper], which is not
    part of this file.  The sequence is reduced so that duplicate identities
    disappear while the relative order of first occurrence is kept: an item is
    kept when it was not seen before, and is remembered from then on. *)
Fixpoint fast_unify_seen {A} `{EqDecision A} (seen seq : list A) : list A :=
  match seq with
  | [] => []
  | item :: seq =>
      if decide (item ∈ seen) then fast_unify_seen seen seq
      else item :: fast_unify_seen (item :: seen) seq
  end.

Definition fast_unify {A} `{EqDecision A} (seq : list A) : list A :=
  fast_unify_seen [] seq.

Section Simplifier.
Context {Expr Cls Callback : Type}.
Context `{Countable Expr} `{Countable Cls} `{EqDecision Callback}.
Context `{!ExprNode Expr Cls}.

(** ** The engine *)

(** [__init__]: the two attributes of an instance. *)
Record ExpressionSimplifier := Simplifier {
  expr_simp_cb : gmap Cls (list Callback);
  simplified_exprs : gset Expr;
}.

Definition init : ExpressionSimplifier := Simplifier ∅ ∅.

(** The rule callback contract: a callback is known by its identity
    ([Callback], compared by [EqDecision]) and, when called with the engine
    and a node, returns a node; it has no effect of its own. *)
Context (simp_func : Callback → ExpressionSimplifier → Expr → Expr).

(** What a run does besides computing: each call of a rule, each call of
    [canonize], each call of [log_exprsimp.debug]. *)
Inductive event :=
  | Called (f : Callback) (expression : Expr)
  | Canonized (expression : Expr)
  | LogDebug (f : Callback) (before after : Expr).

(** The engine, the level of the logger [log_exprsimp], and the events so
    far (oldest first). *)
Record world := World {
  self : ExpressionSimplifier;
  log_level : Z;
  events : list event;
}.

Definition emit (ev : event) (w : world) : world :=
  World (self w) (log_level w) (events w ++ [ev]).

(** [self.simplified_exprs.add(e)] *)
Definition add_simplified (e : Expr) (w : world) : world :=
  World (Simplifier (expr_simp_cb (self w)) ({[e]} ∪ simplified_exprs (self w)))
        (log_level w) (events w).

Definition action (A : Type) : Type := world → option (A * world).

(** ** [enable_passes] *)

(** One turn of [for k, v in viewitems(passes)]. *)
Definition enable_item (cb : gmap Cls (list Callback)) (kv : Cls * list Callback)
    : gmap Cls (list Callback) :=
  <[kv.1 := fast_unify (default [] (cb !! kv.1) ++ kv.2)]> cb.

(** The loop over the items, in the order in which the view yields them. *)
Definition enable_items (items : list (Cls * list Callback))
    (cb : gmap Cls (list Callback)) : gmap Cls (list Callback) :=
  foldl enable_item cb items.

Definition enable_passes (passes : gmap Cls (list Callback))
    (s : ExpressionSimplifier) : ExpressionSimplifier :=
  (* self.simplified_exprs.clear() *)
  let cleared : gset Expr := ∅ in
  Simplifier (enable_items (map_to_list passes) (expr_simp_cb s)) cleared.

(** ** [apply_simp] *)

(** The [for simp_func in ...] loop; [cls] and [debug_level] are computed
    before the loop. *)
Fixpoint apply_simp_loop (cls : Cls) (debug_level : bool)
    (funcs : list Callback) (expression : Expr) (w : world) : Expr * world :=
  match funcs with
  | [] => (expression, w)
  | f :: funcs =>
      let before := expression in
      let expression := simp_func f (self w) before in
      let after := expression in
      let w := emit (Called f before) w in
      let w := if debug_level && bool_decide (before ≠ after)
               then emit (LogDebug f before after) w else w in
      (* if expression.__class__ is not cls: break *)
      if decide (class_of expression = cls)
      then apply_simp_loop cls debug_level funcs expression w
      else (expression, w)
  end.

Definition apply_simp (expression : Expr) (w : world) : Expr * world :=
  let cls := class_of expression in
  let debug_level := bool_decide (logging_DEBUG ≤ log_level w) in
  apply_simp_loop cls debug_level
    (default [] (expr_simp_cb (self w) !! cls)) expression w.

(** ** [Expr.visit] *)

(** The children, left to right, each through [f]. *)
Fixpoint visit_args (f : Expr → action Expr) (args : list Expr) : action (list Expr) :=
  λ w,
  match args with
  | [] => Some ([], w)
  | arg :: args =>
      match f arg w with
      | None => None
      | Some (arg', w) =>
          match visit_args f args w with
          | None => None
          | Some (args', w) => Some (arg' :: args', w)
          end
      end
  end.

(** Modelled from the spec: [visit] of the expression classes, which are not
    part of this file.  It is the bottom-up recursive visit with a per-node
    callback: a node that [test_visit] rejects (here: one already in the
    cache) is returned as it is; otherwise the children are visited first,
    the node is rebuilt only when a child changed (the original node is kept
    when none did), and the callback is applied to that node.  [depth]
    bounds the depth of the descent. *)
Fixpoint visit (depth : nat) (callback : Expr → action Expr)
    (test_visit : Expr → world → bool) (expr : Expr) : action Expr :=
  λ w,
  match depth with
  | O => None
  | S depth =>
      if test_visit expr w then
        match visit_args (visit depth callback test_visit) (args_of expr) w with
        | None => None
        | Some (args, w) =>
            let expr_new :=
              if decide (args = args_of expr) then expr else with_args expr args in
            callback expr_new w
        end
      else Some (expr, w)
  end.

(** ** [expr_simp] and [expr_simp_wrapper] *)

(** [lambda e: e not in self.simplified_exprs] *)
Definition not_simplified (e : Expr) (w : world) : bool :=
  bool_decide (e ∉ simplified_exprs (self w)).

(** [expression.canonize()] *)
Definition do_canonize (expression : Expr) (w : world) : Expr * world :=
  (canonize expression, emit (Canonized expression) w).

(** [fuel] bounds the nesting of calls plus the turns of the [while True]
    loop; [None] stands for a run that needs more.  [find_stable] is the
    loop of [expr_simp], entered with the current [expression]. *)
Fixpoint expr_simp (fuel : nat) (expression : Expr) : action Expr :=
  λ w,
  match fuel with
  | O => None
  | S fuel =>
      if decide (expression ∈ simplified_exprs (self w)) then Some (expression, w)
      else find_stable fuel expression w
  end
with find_stable (fuel : nat) (expression : Expr) : action Expr :=
  λ w,
  match fuel with
  | O => None
  | S fuel =>
      (* Canonize and simplify *)
      let '(canon, w) := do_canonize expression w in
      let '(e_new, w) := apply_simp canon w in
      if decide (e_new = expression) then
        (* Mark expression as simplified *)
        Some (e_new, add_simplified e_new w)
      else
        (* Launch recursivity *)
        match expr_simp_wrapper fuel e_new None w with
        | None => None
        | Some (expression, w) =>
            find_stable fuel expression (add_simplified expression w)
        end
  end
with expr_simp_wrapper (fuel : nat) (expression : Expr)
    (callback : option (Expr → action Expr)) : action Expr :=
  λ w,
  match fuel with
  | O => None
  | S fuel =>
      if decide (expression ∈ simplified_exprs (self w)) then Some (expression, w)
      else
        let callback := default (expr_simp fuel) callback in
        visit fuel callback not_simplified expression w
  end.

(** [__call__] *)
Definition call (fuel : nat) (expression : Expr)
    (callback : option (Expr → action Expr)) : action Expr :=
  expr_simp_wrapper fuel expression callback.

(** ** Reading a run *)

(** The rule calls among the events, each with the node it was given. *)
Definition calls_of (evs : list event) : list (Callback * Expr) :=
  omap (λ ev, match ev with Called f e => Some (f, e) | _ => None end) evs.

(** The nodes that [canonize] was called on. *)
Definition canonized_of (evs : list event) : list Expr :=
  omap (λ ev, match ev with Canonized e => Some e | _ => None end) evs.

(** The world after one turn of the loop of [apply_simp] on [before]. *)
Definition after_call (debug_level : bool) (f : Callback) (before : Expr)
    (w : world) : world :=
  let after := simp_func f (self w) before in
  let w1 := emit (Called f before) w in
  if debug_level && bool_decide (before ≠ after)
  then emit (LogDebug f before after) w1 else w1.

(** The successive outputs when the rules [funcs] are threaded through
    [expression], each rule receiving the output of the one before it. *)
Fixpoint outputs (s : ExpressionSimplifier) (funcs : list Callback)
    (expression : Expr) : list Expr :=
  match funcs with
  | [] => []
  | f :: funcs =>
      let expression := simp_func f s expression in
      expression :: outputs s funcs expression
  end.

(** The first statement of a turn of the loop of [expr_simp]:
    [e_new = self.apply_simp(expression.canonize())]. *)
Definition canonize_and_simplify (expression : Expr) (w : world) : Expr * world :=
  apply_simp (canonize expression) (emit (Canonized expression) w).

(** [w'] comes after [w] in a run without [enable_passes]: same pass table,
    same level of the logger, and a cache that lost nothing. *)
Definition extends (w w' : world) : Prop :=
  expr_simp_cb (self w') = expr_simp_cb (self w) ∧
  log_level w' = log_level w ∧
  simplified_exprs (self w) ⊆ simplified_exprs (self w').

(** Two runs had the same outcome: both ran out of fuel, or both returned,
    the same value and the same engine. *)
Definition same_outcome {A} (x y : option (A * world)) : Prop :=
  match x, y with
  | Some (a1, w1), Some (a2, w2) => a1 = a2 ∧ self w1 = self w2
  | None, None => True
  | _, _ => False
  end.

(** The rules read at most the pass table of the engine they are given. *)
Definition rules_ignore_cache : Prop :=
  ∀ f s1 s2 e, expr_simp_cb s1 = expr_simp_cb s2 → simp_func f s1 e = simp_func f s2 e.

(** The calls of [log_exprsimp.debug] among the events. *)
Definition debug_of (evs : list event) : list (Callback * Expr * Expr) :=
  omap (λ ev, match ev with LogDebug f e1 e2 => Some (f, e1, e2) | _ => None end) evs.

(** What [log_exprsimp.debug] is called with for the rule call [(f, before)]
    on engine [s], if it is called: the level test of [apply_simp] passes and
    the rule changed the node. *)
Definition debug_line (level : Z) (s : ExpressionSimplifier)
    (call : Callback * Expr) : option (Callback * Expr * Expr) :=
  let after := simp_func call.1 s call.2 in
  if bool_decide (logging_DEBUG ≤ level) && bool_decide (call.2 ≠ after)
  then Some (call.1, call.2, after) else None.

(** [e] is a stable state on the engine of [w]: one more
    [self.apply_simp(e.canonize())] returns [e]. *)
Definition stable (w : world) (e : Expr) : Prop :=
  (canonize_and_simplify e w).1 = e.

(** Every node of the cache is a stable state. *)
Definition cache_stable (w : world) : Prop :=
  ∀ e, e ∈ simplified_exprs (self w) → stable w e.

(** The pass tables that [enable_passes] produces from a new engine hold
    lists without duplicates. *)
Definition unified (s : ExpressionSimplifier) : Prop :=
  ∀ k l, expr_simp_cb s !! k = Some l → NoDup l.

End Simplifier.

(** ** A concrete expression type

    Modelled from the spec: the expression classes of
    [miasm.expression.expression], which are not part of this file.  A node is
    identified by its class, a class-specific payload (operator or identifier
    name; constant value, bit width, slice bounds) and its ordered children. *)
Module Miasm.

Inductive ExprClass :=
  | ExprInt | ExprId | ExprLoc | ExprMem | ExprCond | ExprSlice
  | ExprCompose | ExprOp | ExprAssign | ExprAff.

#[warnings="-register-all"]
Inductive Expr :=
  | Node (cls : ExprClass) (payload : string * list Z) (args : list Expr).

Definition class_rank (c : ExprClass) : nat :=
  match c with
  | ExprInt => 0 | ExprId => 1 | ExprLoc => 2 | ExprMem => 3 | ExprCond => 4
  | ExprSlice => 5 | ExprCompose => 6 | ExprOp => 7 | ExprAssign => 8
  | ExprAff => 9
  end%nat.

Definition class_of_rank (n : nat) : ExprClass :=
  match n with
  | 0 => ExprInt | 1 => ExprId | 2 => ExprLoc | 3 => ExprMem | 4 => ExprCond
  | 5 => ExprSlice | 6 => ExprCompose | 7 => ExprOp | 8 => ExprAssign
  | _ => ExprAff
  end%nat.

#[global] Instance ExprClass_eq_dec : EqDecision ExprClass.
Proof. solve_decision. Defined.

(** [ExprAff] is declared as a subclass of [ExprAssign]; every class is a
    subclass of itself. *)
Definition issubclass (c base : ExprClass) : bool :=
  match c, base with
  | ExprAff, ExprAssign => true
  | _, _ => bool_decide (c = base)
  end.

#[global] Instance ExprClass_countable : Countable ExprClass.
Proof.
  apply (inj_countable' class_rank class_of_rank). by intros [].
Defined.

Fixpoint to_tree (e : Expr) : gen_tree (ExprClass * (string * list Z)) :=
  match e with
  | Node cls payload args => GenNode 0 (GenLeaf (cls, payload) :: map to_tree args)
  end.

Fixpoint of_tree (t : gen_tree (ExprClass * (string * list Z))) : Expr :=
  match t with
  | GenNode _ (GenLeaf (cls, payload) :: ts) => Node cls payload (map of_tree ts)
  | _ => Node ExprInt (EmptyString, []) []
  end.

Fixpoint of_to_tree (e : Expr) : of_tree (to_tree e) = e.
Proof.
  destruct e as [cls payload args]; simpl. f_equal.
  induction args as [|a args IH]; simpl; [done|].
  by rewrite of_to_tree, IH.
Defined.

#[global] Instance Expr_eq_dec : EqDecision Expr.
Proof.
  intros x y. destruct (decide (to_tree x = to_tree y)) as [Heq|Hne].
  - left. by rewrite <-(of_to_tree x), <-(of_to_tree y), Heq.
  - right. by intros ->.
Defined.

#[global] Instance Expr_countable : Countable Expr.
Proof. exact (inj_countable' to_tree of_tree of_to_tree). Defined.

(** The constructors of the classes. *)
Definition EInt (value size : Z) : Expr := Node ExprInt (EmptyString, [value; size]) [].
Definition EId (name : string) (size : Z) : Expr := Node ExprId (name, [size]) [].
Definition EMem (ptr : Expr) (size : Z) : Expr := Node ExprMem (EmptyString, [size]) [ptr].
Definition ECond (cond src1 src2 : Expr) : Expr :=
  Node ExprCond (EmptyString, []) [cond; src1; src2].
Definition ESlice (arg : Expr) (start stop : Z) : Expr :=
  Node ExprSlice (EmptyString, [start; stop]) [arg].
Definition ECompose (args : list Expr) : Expr := Node ExprCompose (EmptyString, []) args.
Definition EOp (op : string) (args : list Expr) : Expr := Node ExprOp (op, []) args.
Definition EAssign (dst src : Expr) : Expr := Node ExprAssign (EmptyString, []) [dst; src].
Definition EAff (dst src : Expr) : Expr := Node ExprAff (EmptyString, []) [dst; src].

Definition is_commutative (cls : ExprClass) (op : string) : bool :=
  match cls with
  | ExprOp => bool_decide (op ∈ ["+"; "*"; "^"; "&"; "|"]%string)
  | _ => false
  end.

(** The order that canonicalization sorts operands by: class first, then
    the payload, then the children from left to right. *)
Fixpoint list_compare {A} (cmp : A → A → comparison) (l1 l2 : list A) : comparison :=
  match l1, l2 with
  | [], [] => Eq
  | [], _ :: _ => Lt
  | _ :: _, [] => Gt
  | x :: l1, y :: l2 =>
      match cmp x y with Eq => list_compare cmp l1 l2 | c => c end
  end.

Fixpoint expr_compare (a b : Expr) {struct a} : comparison :=
  match a, b with
  | Node cls1 (name1, nums1) args1, Node cls2 (name2, nums2) args2 =>
      match Nat.compare (class_rank cls1) (class_rank cls2) with
      | Eq =>
          match String.compare name1 name2 with
          | Eq =>
              match list_compare Z.compare nums1 nums2 with
              | Eq =>
                  (fix args_compare (l1 l2 : list Expr) {struct l1} : comparison :=
                     match l1, l2 with
                     | [], [] => Eq
                     | [], _ :: _ => Lt
                     | _ :: _, [] => Gt
                     | x :: l1, y :: l2 =>
                         match expr_compare x y with
                         | Eq => args_compare l1 l2
                         | c => c
                         end
                     end) args1 args2
              | c => c
              end
          | c => c
          end
      | c => c
      end
  end.

Definition expr_le (a b : Expr) : Prop := expr_compare a b ≠ Gt.

#[global] Instance expr_le_dec : RelDecision expr_le.
Proof. intros a b. unfold expr_le. apply _. Defined.

(** Modelled from the spec: [canonize], a deterministic normalization that
    sorts the operands of commutative operators, in the children first. *)
Fixpoint canonize_expr (e : Expr) : Expr :=
  match e with
  | Node cls payload args =>
      let args := map canonize_expr args in
      Node cls payload
        (if is_commutative cls payload.1 then merge_sort expr_le args else args)
  end.

#[global] Instance Expr_node : ExprNode Expr ExprClass := {|
  class_of e := match e with Node cls _ _ => cls end;
  canonize := canonize_expr;
  args_of e := match e with Node _ _ args => args end;
  with_args e args := match e with Node cls payload _ => Node cls payload args end;
|}.

(** Rules in the manner of [simplifications_common], for the examples. *)
Inductive TestRule :=
  | fold_add         (* a + b on constants is folded *)
  | add_twice        (* x + x becomes x << 1 *)
  | select_branch    (* a condition on a constant selects a branch *)
  | wrong_class      (* a rule that does not fit the class it would run on *)
  | swap_operands    (* x + y becomes y + x *)
  | assign_to_aff.   (* an assignment is rebuilt in the deprecated class *)

#[global] Instance TestRule_eq_dec : EqDecision TestRule.
Proof. solve_decision. Defined.

Definition run_rule {S : Type} (r : TestRule) (_ : S) (e : Expr) : Expr :=
  match r, e with
  | fold_add,
    Node ExprOp ("+"%string, []) [Node ExprInt (_, [a; sz]) []; Node ExprInt (_, [b; _]) []] =>
      EInt (a + b) sz
  | add_twice, Node ExprOp ("+"%string, []) [x; y] =>
      if decide (x = y) then EOp "<<" [x; EInt 1 32] else e
  | select_branch, Node ExprCond _ [Node ExprInt (_, [c; _]) []; src1; src2] =>
      if decide (c = 0) then src2 else src1
  | wrong_class, Node _ _ _ => EId "wrong" 32
  | swap_operands, Node ExprOp ("+"%string, []) [x; y] => EOp "+" [y; x]
  | assign_to_aff, Node ExprAssign payload args => Node ExprAff payload args
  | _, _ => e
  end.

(** The nodes, pass tables and engines of the examples. *)
Definition id_a : Expr := EId "a" 32.
Definition id_b : Expr := EId "b" 32.
Definition a_plus_b : Expr := EOp "+" [id_a; id_b].
Definition b_plus_a : Expr := EOp "+" [id_b; id_a].
Definition cond_1 : Expr := ECond (EInt 1 32) id_a id_b.
Definition twice_cond : Expr := EOp "+" [cond_1; cond_1].
Definition two_plus_three : Expr := EOp "+" [EInt 2 32; EInt 3 32].

Definition TEST_FOLDING : gmap ExprClass (list TestRule) :=
  {[ ExprOp := [fold_add; add_twice]; ExprCond := [select_branch] ]}.
Definition TEST_SWAP : gmap ExprClass (list TestRule) :=
  {[ ExprOp := [swap_operands] ]}.
Definition TEST_WRONG : gmap ExprClass (list TestRule) :=
  {[ ExprCond := [select_branch; wrong_class] ]}.
Definition TEST_ASSIGN : gmap ExprClass (list TestRule) :=
  {[ ExprAssign := [assign_to_aff; wrong_class] ]}.

Definition new_engine : @ExpressionSimplifier Expr ExprClass TestRule _ _ _ _ := init.

(** A new engine with [passes] enabled, the logger at [level], nothing
    logged yet. *)
Definition engine_with (passes : gmap ExprClass (list TestRule)) (level : Z)
    : @world Expr ExprClass TestRule _ _ _ _ :=
  World (enable_passes passes new_engine) level [].

End Miasm.

(** ** The pass tables of the class and the public instances *)
Module Passes.
Import Miasm.

(** The callbacks that the tables name, from [simplifications_common],
    [simplifications_cond] and [simplifications_explicit]; only their
    identities matter here. *)
Inductive Pass :=
  | simp_cst_propagation | simp_cond_op_int | simp_cond_factor | simp_add_multiple
  | simp_cc_conds | simp_subwc_cf | simp_subwc_of | simp_sign_subwc_cf
  | simp_double_zeroext | simp_double_signext | simp_zeroext_eq_cst | simp_ext_eq_ext
  | simp_cmp_int | simp_cmp_bijective_op | simp_sign_inf_zeroext | simp_cmp_int_int
  | simp_ext_cst | simp_zeroext_and_cst_eq_cst | simp_test_signext_inf
  | simp_test_zeroext_inf | simp_cond_inf_eq_unsigned_zero | simp_compose_and_mask
  | simp_slice | simp_slice_of_ext | simp_slice_of_op_ext
  | simp_compose
  | simp_cond | simp_cond_zeroext | simp_cond_add | simp_cond_flag | simp_cmp_int_arg
  | simp_cond_eq_zero | simp_x_and_cst_eq_cst | simp_cond_logic_ext | simp_cond_sign_bit
  | simp_cond_eq_1_0
  | simp_mem
  | expr_simp_inf_signed | expr_simp_inf_unsigned_inversed | expr_simp_inverse
  | expr_simp_equal
  | simp_flags | simp_ext.

#[global] Instance Pass_eq_dec : EqDecision Pass.
Proof. solve_decision. Defined.

(** Common passes *)
Definition PASS_COMMONS : gmap ExprClass (list Pass) :=
  {[ ExprOp := [
       simp_cst_propagation;
       simp_cond_op_int;
       simp_cond_factor;
       simp_add_multiple;
       (* CC op *)
       simp_cc_conds;
       simp_subwc_cf;
       simp_subwc_of;
       simp_sign_subwc_cf;
       simp_double_zeroext;
       simp_double_signext;
       simp_zeroext_eq_cst;
       simp_ext_eq_ext;

       simp_cmp_int;
       simp_cmp_bijective_op;
       simp_sign_inf_zeroext;
       simp_cmp_int_int;
       simp_ext_cst;
       simp_zeroext_and_cst_eq_cst;
       simp_test_signext_inf;
       simp_test_zeroext_inf;
       simp_cond_inf_eq_unsigned_zero;
       simp_compose_and_mask ];
     ExprSlice := [
       simp_slice;
       simp_slice_of_ext;
       simp_slice_of_op_ext ];
     ExprCompose := [simp_compose];
     ExprCond := [
       simp_cond;
       simp_cond_zeroext;
       simp_cond_add;
       (* CC op *)
       simp_cond_flag;
       simp_cmp_int_arg;

       simp_cond_eq_zero;
       simp_x_and_cst_eq_cst;
       simp_cond_logic_ext;
       simp_cond_sign_bit;
       simp_cond_eq_1_0 ];
     ExprMem := [simp_mem] ]}.

(** Heavy passes *)
Definition PASS_HEAVY : gmap ExprClass (list Pass) := ∅.

(** Cond passes *)
Definition PASS_COND : gmap ExprClass (list Pass) :=
  {[ ExprSlice := [expr_simp_inf_signed; expr_simp_inf_unsigned_inversed];
     ExprOp := [expr_simp_inverse];
     ExprCond := [expr_simp_equal] ]}.

(** highlevel: transform high level operators to explicit computations *)
Definition PASS_HIGH_TO_EXPLICIT : gmap ExprClass (list Pass) :=
  {[ ExprOp := [simp_flags; simp_ext] ]}.

(** The public instances at the end of the file. *)
Definition expr_simp : @ExpressionSimplifier Expr ExprClass Pass _ _ _ _ :=
  enable_passes PASS_COMMONS init.

Definition expr_simp_high_to_explicit : @ExpressionSimplifier Expr ExprClass Pass _ _ _ _ :=
  enable_passes PASS_HIGH_TO_EXPLICIT init.

Definition expr_simp_explicit : @ExpressionSimplifier Expr ExprClass Pass _ _ _ _ :=
  enable_passes PASS_HIGH_TO_EXPLICIT (enable_passes PASS_COMMONS init).

End Passes.

(** ** The engine as objects in a store

    [enable_passes] once more, with the dictionaries, lists and sets as
    objects that are reached through references, so that the sharing between
    the argument of [enable_passes] and the engine is explicit. *)
Module Objects.
Section Objects.
Context {Expr Cls Callback : Type}.
Context `{Countable Expr} `{Countable Cls} `{EqDecision Callback}.

Definition ref : Type := positive.

(** The list objects, the dict objects (class to list reference) and the
    set objects. *)
Record store := Store {
  lists : gmap ref (list Callback);
  dicts : gmap ref (gmap Cls ref);
  sets : gmap ref (gset Expr);
}.

(** An instance of [ExpressionSimplifier]: its two attributes. *)
Record instance := Instance {
  expr_simp_cb : ref;
  simplified_exprs : ref;
}.

(** A list object that did not exist before. *)
Definition new_list (l : list Callback) (h : store) : ref * store :=
  let r := fresh (dom (lists h)) in
  (r, Store (<[r := l]> (lists h)) (dicts h) (sets h)).

(** [__init__] *)
Definition init (h : store) : instance * store :=
  let d := fresh (dom (dicts h)) in
  let s := fresh (dom (sets h)) in
  (Instance d s, Store (lists h) (<[d := ∅]> (dicts h)) (<[s := ∅]> (sets h))).

(** [self.expr_simp_cb[k] = fast_unify(self.expr_simp_cb.get(k, []) + v)]:
    the concatenation and [fast_unify] read their arguments and build new
    lists; the result is bound to [k] in the dict of the engine.  The
    temporary lists are not kept. *)
Definition enable_item (self : instance) (h : store) (kv : Cls * ref) : option store :=
  cb ← dicts h !! expr_simp_cb self;
  old ← match cb !! kv.1 with
        | Some r => lists h !! r
        | None => Some []
        end;
  v ← lists h !! kv.2;
  let '(r, h) := new_list (fast_unify (old ++ v)) h in
  Some (Store (lists h) (<[expr_simp_cb self := <[kv.1 := r]> cb]> (dicts h)) (sets h)).

(** [for k, v in viewitems(passes)], over the items as the view yields them. *)
Fixpoint enable_items (self : instance) (items : list (Cls * ref)) (h : store)
    : option store :=
  match items with
  | [] => Some h
  | kv :: items => h ← enable_item self h kv; enable_items self items h
  end.

Definition enable_passes (self : instance) (passes : ref) (h : store) : option store :=
  (* self.simplified_exprs.clear() *)
  _ ← sets h !! simplified_exprs self;
  let h := Store (lists h) (dicts h) (<[simplified_exprs self := ∅]> (sets h)) in
  items ← dicts h !! passes;
  enable_items self (map_to_list items) h.

(** The rule list that the dict [d] holds for class [k]. *)
Definition entry_at (h : store) (d : ref) (k : Cls) : option (list Callback) :=
  refs ← dicts h !! d; r ← refs !! k; lists h !! r.

(** [d] is a dict, and every reference in it leads to a list. *)
Definition dict_ok (h : store) (d : ref) : Prop :=
  match dicts h !! d with
  | Some refs => map_Forall (λ _ r, is_Some (lists h !! r)) refs
  | None => False
  end.

#[global] Instance dict_ok_dec h d : Decision (dict_ok h d).
Proof. unfold dict_ok. destruct (dicts h !! d); apply _. Defined.

(** The lists that the dict [d] holds have no duplicates. *)
Definition dict_unified (h : store) (d : ref) : Prop :=
  ∀ k l, entry_at h d k = Some l → NoDup l.

End Objects.

(** The objects of the example: the constants [PASS_COMMONS] and
    [PASS_HIGH_TO_EXPLICIT], each a dict with its rule lists, and a new engine
    with its empty dict and set. *)
Definition PASS_COMMONS : ref := 1%positive.
Definition PASS_HIGH_TO_EXPLICIT : ref := 2%positive.

Definition simplifier : instance := Instance 3%positive 1%positive.

Definition store_0 : @store Miasm.Expr Miasm.ExprClass Passes.Pass _ _ _ _ :=
  Store
    {[ 1%positive := default [] (Passes.PASS_COMMONS !! Miasm.ExprOp);
       2%positive := default [] (Passes.PASS_COMMONS !! Miasm.ExprSlice);
       3%positive := default [] (Passes.PASS_COMMONS !! Miasm.ExprCompose);
       4%positive := default [] (Passes.PASS_COMMONS !! Miasm.ExprCond);
       5%positive := default [] (Passes.PASS_COMMONS !! Miasm.ExprMem);
       6%positive := default [] (Passes.PASS_HIGH_TO_EXPLICIT !! Miasm.ExprOp) ]}
    {[ 1%positive := {[ Miasm.ExprOp := 1%positive; Miasm.ExprSlice := 2%positive;
                        Miasm.ExprCompose := 3%positive; Miasm.ExprCond := 4%positive;
                        Miasm.ExprMem := 5%positive ]};
       2%positive := {[ Miasm.ExprOp := 6%positive ]};
       3%positive := ∅ ]}
    {[ 1%positive := ∅ ]}.

(** An engine whose own dict holds a list with a duplicate for [ExprOp] and
    a list without for [ExprCond], as the attribute [expr_simp_cb] can be
    set from outside. *)
Definition simplifier_1 : instance := Instance 1%positive 1%positive.

Definition store_1 : @store Miasm.Expr Miasm.ExprClass Passes.Pass _ _ _ _ :=
  Store
    {[ 1%positive := [Passes.simp_flags; Passes.simp_flags; Passes.simp_ext];
       2%positive := [Passes.simp_cond] ]}
    {[ 1%positive := {[ Miasm.ExprOp := 1%positive; Miasm.ExprCond := 2%positive ]} ]}
    {[ 1%positive := ∅ ]}.

End Objects.

(** ** Proof steps *)

(** A run of the goal is shown to return by evaluating it; [r], [w] and
    [Hrun] name what it returned. *)
Ltac returned r w Hrun :=
  match goal with
  | |- context [?run = Some _] =>
      assert (is_Some run) as [[r w] Hrun]
        by (apply (bool_decide_unpack _); vm_compute; exact I)
  end.

(** * Properties *)

(** ** [fast_unify] *)
Section FastUnify.
Context {A : Type} `{EqDecision A}.
Implicit Types seen seq old new : list A.

Lemma fast_unify_seen_elem seen seq x :
  x ∈ fast_unify_seen seen seq ↔ x ∈ seq ∧ x ∉ seen.
Proof.
  revert seen. induction seq as [|item seq IH]; intros seen; simpl.
  - set_solver.
  - case_decide as Hin.
    + rewrite IH. set_solver.
    + rewrite elem_of_cons, IH. split.
      * intros [->|[? Hn]]; [set_solver|]. split; [set_solver|].
        intros ?. apply Hn. set_solver.
      * intros [[->|?]%elem_of_cons Hn]; [by left|].
        destruct (decide (x = item)) as [->|]; [by left|].
        right. split; [done|]. set_solver.
Qed.

Lemma fast_unify_seen_NoDup seen seq : NoDup (fast_unify_seen seen seq).
Proof.
  revert seen. induction seq as [|item seq IH]; intros seen; simpl.
  - constructor.
  - case_decide; [apply IH|]. constructor; [|apply IH].
    rewrite fast_unify_seen_elem. set_solver.
Qed.

Lemma fast_unify_seen_sublist seen seq : sublist (fast_unify_seen seen seq) seq.
Proof.
  revert seen. induction seq as [|item seq IH]; intros seen; simpl; [done|].
  case_decide; [by apply sublist_cons|by apply sublist_skip].
Qed.

(** Only the members of [seen] matter. *)
Lemma fast_unify_seen_ext seen1 seen2 seq :
  (∀ x, x ∈ seen1 ↔ x ∈ seen2) →
  fast_unify_seen seen1 seq = fast_unify_seen seen2 seq.
Proof.
  revert seen1 seen2. induction seq as [|item seq IH]; intros s1 s2 Hs; simpl; [done|].
  destruct (decide (item ∈ s1)) as [H1|H1], (decide (item ∈ s2)) as [H2|H2].
  - by apply IH.
  - by apply Hs in H1.
  - by apply Hs in H2.
  - f_equal. apply IH. intros x. rewrite !elem_of_cons. by rewrite Hs.
Qed.

Lemma fast_unify_seen_app seen seq1 seq2 :
  fast_unify_seen seen (seq1 ++ seq2) =
  fast_unify_seen seen seq1 ++ fast_unify_seen (seq1 ++ seen) seq2.
Proof.
  revert seen. induction seq1 as [|item seq1 IH]; intros seen; simpl; [done|].
  case_decide as Hin.
  - rewrite IH. f_equal. apply fast_unify_seen_ext. set_solver.
  - rewrite IH. simpl. do 2 f_equal. apply fast_unify_seen_ext. set_solver.
Qed.

Lemma fast_unify_seen_all_seen seen seq :
  (∀ x, x ∈ seq → x ∈ seen) → fast_unify_seen seen seq = [].
Proof.
  intros Hall. induction seq as [|item seq IH]; simpl; [done|].
  rewrite decide_True by set_solver. apply IH. set_solver.
Qed.

Lemma fast_unify_seen_id seen seq :
  NoDup seq → (∀ x, x ∈ seq → x ∉ seen) → fast_unify_seen seen seq = seq.
Proof.
  revert seen. induction seq as [|item seq IH]; intros seen Hnd Hdisj; simpl; [done|].
  apply NoDup_cons in Hnd as [Hnotin Hnd].
  rewrite decide_False by set_solver. f_equal. apply IH; [done|].
  intros x Hx [->|?]%elem_of_cons; [done|]. eapply Hdisj; [|done]. set_solver.
Qed.

Lemma fast_unify_NoDup seq : NoDup (fast_unify seq).
Proof. apply fast_unify_seen_NoDup. Qed.

Lemma fast_unify_elem seq x : x ∈ fast_unify seq ↔ x ∈ seq.
Proof. unfold fast_unify. rewrite fast_unify_seen_elem. set_solver. Qed.

Lemma fast_unify_sublist seq : sublist (fast_unify seq) seq.
Proof. apply fast_unify_seen_sublist. Qed.

Lemma fast_unify_id seq : NoDup seq → fast_unify seq = seq.
Proof. intros. apply fast_unify_seen_id; [done|]. set_solver. Qed.

(** Items that are already there are absorbed. *)
Lemma fast_unify_absorb seq new :
  NoDup seq → (∀ x, x ∈ new → x ∈ seq) → fast_unify (seq ++ new) = seq.
Proof.
  intros Hnd Hsub. unfold fast_unify.
  rewrite fast_unify_seen_app, (fast_unify_seen_all_seen _ new) by set_solver.
  rewrite app_nil_r. apply fast_unify_seen_id; [done|]. set_solver.
Qed.

(** An item is kept where it occurs first: a later occurrence adds nothing,
    a new item goes to the end. *)
Lemma fast_unify_snoc seq x :
  fast_unify (seq ++ [x]) =
  if decide (x ∈ seq) then fast_unify seq else fast_unify seq ++ [x].
Proof.
  unfold fast_unify. rewrite fast_unify_seen_app. simpl.
  rewrite app_nil_r. destruct (decide (x ∈ seq)); [by rewrite app_nil_r|done].
Qed.

(** A list followed by itself unifies to what the list alone unifies to. *)
Lemma fast_unify_double seq : fast_unify (seq ++ seq) = fast_unify seq.
Proof.
  unfold fast_unify. rewrite fast_unify_seen_app.
  rewrite (fast_unify_seen_all_seen (seq ++ []) seq) by set_solver.
  by rewrite app_nil_r.
Qed.

(** Unifying again what was unified with [new] changes nothing. *)
Lemma fast_unify_again old new :
  fast_unify (fast_unify (old ++ new) ++ new) = fast_unify (old ++ new).
Proof.
  apply fast_unify_absorb; [apply fast_unify_NoDup|].
  intros x Hx. apply fast_unify_elem. set_solver.
Qed.
End FastUnify.

Section Facts.
Context {Expr Cls Callback : Type}.
Context `{Countable Expr} `{Countable Cls} `{EqDecision Callback}.
Context `{!ExprNode Expr Cls}.

Local Abbreviation engine := (@ExpressionSimplifier Expr Cls Callback _ _ _ _).
Local Abbreviation table := (gmap Cls (list Callback)).

Context (simp_func : Callback → engine → Expr → Expr).

Local Abbreviation world := (@world Expr Cls Callback _ _ _ _).
Local Abbreviation action := (@action Expr Cls Callback _ _ _ _).

Implicit Types (s : engine) (w : world) (e r : Expr) (k cls : Cls)
  (funcs pre post : list Callback) (passes cb : table).

(** ** [enable_passes] *)

Lemma enable_items_lookup (items : list (Cls * list Callback)) cb k :
  NoDup items.*1 →
  enable_items items cb !! k =
    match (list_to_map items : table) !! k with
    | Some v => Some (fast_unify (default [] (cb !! k) ++ v))
    | None => cb !! k
    end.
Proof.
  unfold enable_items.
  revert cb. induction items as [|[k0 v0] items IH]; intros cb Hnd; simpl.
  { by rewrite lookup_empty. }
  apply NoDup_cons in Hnd as [Hk0 Hnd].
  rewrite IH by done. unfold enable_item; simpl.
  destruct (decide (k = k0)) as [->|Hne].
  - rewrite (not_elem_of_list_to_map_1 _ k0) by done.
    by rewrite !lookup_insert_eq.
  - by rewrite !lookup_insert_ne by done.
Qed.

Lemma enable_passes_lookup passes s k :
  expr_simp_cb (enable_passes passes s) !! k =
    match passes !! k with
    | Some v => Some (fast_unify (default [] (expr_simp_cb s !! k) ++ v))
    | None => expr_simp_cb s !! k
    end.
Proof.
  unfold enable_passes; simpl.
  rewrite enable_items_lookup by apply NoDup_fst_map_to_list.
  by rewrite list_to_map_to_list.
Qed.

(** X1: the order in which [viewitems] yields the items of [passes] is
    immaterial: the loop of [enable_passes] builds the same pass table from
    any arrangement of the items. *)
Lemma enable_items_any_order (items : list (Cls * list Callback)) passes cb :
  items ≡ₚ map_to_list passes →
  enable_items items cb = enable_items (map_to_list passes) cb.
Proof.
  intros Hperm. apply map_eq; intros k.
  assert (NoDup items.*1) as Hnd.
  { rewrite Hperm. apply NoDup_fst_map_to_list. }
  rewrite !enable_items_lookup by (done || apply NoDup_fst_map_to_list).
  assert ((list_to_map items : table) = list_to_map (map_to_list passes)) as ->; [|done].
  by apply list_to_map_proper.
Qed.

Lemma init_unified : unified (init : engine).
Proof. intros k l. simpl. by rewrite lookup_empty. Qed.

Lemma enable_passes_unified passes s : unified s → unified (enable_passes passes s).
Proof.
  intros Hs k l. rewrite enable_passes_lookup.
  destruct (passes !! k); [|apply Hs].
  intros [= <-]. apply fast_unify_NoDup.
Qed.

(** C5: every call of [enable_passes], with any argument, leaves the cache
    of the engine empty; hence no node is a cache hit right after it:
    [expr_simp] and [expr_simp_wrapper] go past their cache test for every
    node. *)
Theorem enable_passes_clears_cache passes s :
  simplified_exprs (enable_passes passes s) = ∅ ∧
  ∀ e lvl evs fuel,
    let w := World (enable_passes passes s) lvl evs in
    (e ∉ simplified_exprs (self w)) ∧
    expr_simp simp_func (S fuel) e w = find_stable simp_func fuel e w ∧
    expr_simp_wrapper simp_func (S fuel) e None w =
      visit fuel (expr_simp simp_func fuel) not_simplified e w.
Proof.
  split; [done|]. intros e lvl evs fuel w.
  assert (e ∉ simplified_exprs (self w)) as Hnot by (simpl; set_solver).
  split_and!; [done| |]; simpl; by rewrite decide_False.
Qed.

(** C6: [enable_passes] unifies stably.  For each class of [passes] the new
    rule list is [fast_unify] of the existing list followed by the new one,
    and the other classes keep their list; on an engine whose lists are
    unified, as [enable_passes] leaves them, this is for every class the
    concatenation of the existing and the new list with duplicates removed.
    The unified list has no duplicates, holds exactly the rules of the
    concatenation, in the order of the concatenation, each rule at its first
    occurrence.  And enabling the same passes a second time gives the engine
    that enabling them once gives. *)
Theorem enable_passes_stable_unify passes s :
  (∀ k, expr_simp_cb (enable_passes passes s) !! k =
          match passes !! k with
          | Some v => Some (fast_unify (default [] (expr_simp_cb s !! k) ++ v))
          | None => expr_simp_cb s !! k
          end) ∧
  (unified s →
   ∀ k, default [] (expr_simp_cb (enable_passes passes s) !! k) =
          fast_unify (default [] (expr_simp_cb s !! k) ++ default [] (passes !! k))) ∧
  (∀ seq : list Callback,
      NoDup (fast_unify seq) ∧
      (∀ f, f ∈ fast_unify seq ↔ f ∈ seq) ∧
      sublist (fast_unify seq) seq ∧
      (∀ f, fast_unify (seq ++ [f]) =
              if decide (f ∈ seq) then fast_unify seq else fast_unify seq ++ [f])) ∧
  enable_passes passes (enable_passes passes s) = enable_passes passes s.
Proof.
  split_and!.
  - apply enable_passes_lookup.
  - intros Hs k. rewrite enable_passes_lookup.
    destruct (passes !! k) as [v|]; [done|]. simpl. rewrite app_nil_r.
    destruct (expr_simp_cb s !! k) as [l|] eqn:Hl; [|done]. simpl.
    symmetry. apply fast_unify_id. by eapply Hs.
  - intros seq. split_and!.
    + apply fast_unify_NoDup.
    + apply fast_unify_elem.
    + apply fast_unify_sublist.
    + apply fast_unify_snoc.
  - unfold enable_passes; simpl. f_equal. apply map_eq; intros k.
    rewrite !enable_items_lookup by apply NoDup_fst_map_to_list.
    rewrite list_to_map_to_list.
    destruct (passes !! k) as [v|]; simpl; [|done].
    by rewrite fast_unify_again.
Qed.

(** ** [apply_simp] *)

Lemma calls_of_emit_called (evs : list (@event Expr Callback)) f e :
  calls_of (evs ++ [Called f e]) = calls_of evs ++ [(f, e)].
Proof. unfold calls_of. by rewrite omap_app. Qed.

Lemma calls_of_emit_debug (evs : list (@event Expr Callback)) f e1 e2 :
  calls_of (evs ++ [LogDebug f e1 e2]) = calls_of evs.
Proof. unfold calls_of. rewrite omap_app. simpl. by rewrite app_nil_r. Qed.

Lemma calls_of_emit_canonized (evs : list (@event Expr Callback)) e :
  calls_of (evs ++ [Canonized e]) = calls_of evs.
Proof. unfold calls_of. rewrite omap_app. simpl. by rewrite app_nil_r. Qed.

Lemma after_call_self dbg f e w : self (after_call simp_func dbg f e w) = self w.
Proof. unfold after_call. by destruct (_ && _). Qed.

Lemma after_call_log_level dbg f e w :
  log_level (after_call simp_func dbg f e w) = log_level w.
Proof. unfold after_call. by destruct (_ && _). Qed.

Lemma after_call_calls dbg f e w :
  calls_of (events (after_call simp_func dbg f e w)) = calls_of (events w) ++ [(f, e)].
Proof.
  unfold after_call. destruct (_ && _); simpl.
  - by rewrite calls_of_emit_debug, calls_of_emit_called.
  - by rewrite calls_of_emit_called.
Qed.

Lemma apply_simp_loop_cons cls dbg f funcs e w :
  apply_simp_loop simp_func cls dbg (f :: funcs) e w =
    if decide (class_of (simp_func f (self w) e) = cls)
    then apply_simp_loop simp_func cls dbg funcs (simp_func f (self w) e)
           (after_call simp_func dbg f e w)
    else (simp_func f (self w) e, after_call simp_func dbg f e w).
Proof. done. Qed.

(** The loop touches neither the engine nor the level of the logger. *)
Lemma apply_simp_loop_frame cls dbg funcs e w :
  self (apply_simp_loop simp_func cls dbg funcs e w).2 = self w ∧
  log_level (apply_simp_loop simp_func cls dbg funcs e w).2 = log_level w.
Proof.
  revert e w. induction funcs as [|f funcs IH]; intros e w; [done|].
  rewrite apply_simp_loop_cons. case_decide; simpl.
  - destruct (IH (simp_func f (self w) e) (after_call simp_func dbg f e w)) as [-> ->].
    by rewrite after_call_self, after_call_log_level.
  - by rewrite after_call_self, after_call_log_level.
Qed.

Lemma apply_simp_frame e w :
  self (apply_simp simp_func e w).2 = self w ∧
  log_level (apply_simp simp_func e w).2 = log_level w.
Proof. apply apply_simp_loop_frame. Qed.

(** No rule changes the class: every rule runs, on the output of the one
    before it. *)
Lemma apply_simp_loop_all cls dbg funcs e w :
  Forall (λ e', class_of e' = cls) (outputs simp_func (self w) funcs e) →
  (apply_simp_loop simp_func cls dbg funcs e w).1 =
    foldl (λ acc f, simp_func f (self w) acc) e funcs ∧
  calls_of (events (apply_simp_loop simp_func cls dbg funcs e w).2) =
    calls_of (events w) ++ zip funcs (e :: outputs simp_func (self w) funcs e).
Proof.
  revert e w. induction funcs as [|f funcs IH]; intros e w Hkept.
  { simpl. by rewrite app_nil_r. }
  simpl in Hkept. apply Forall_cons in Hkept as [Hcls Hkept].
  rewrite apply_simp_loop_cons, decide_True by done.
  specialize (IH (simp_func f (self w) e) (after_call simp_func dbg f e w)).
  rewrite after_call_self, after_call_calls in IH.
  destruct (IH Hkept) as [-> ->]. split; [done|].
  simpl. by rewrite <-app_assoc.
Qed.

(** A rule changes the class: the rules after it do not run. *)
Lemma apply_simp_loop_break cls dbg pre f post e w :
  Forall (λ e', class_of e' = cls) (outputs simp_func (self w) pre e) →
  class_of (simp_func f (self w) (foldl (λ acc f, simp_func f (self w) acc) e pre)) ≠ cls →
  (apply_simp_loop simp_func cls dbg (pre ++ f :: post) e w).1 =
    simp_func f (self w) (foldl (λ acc f, simp_func f (self w) acc) e pre) ∧
  calls_of (events (apply_simp_loop simp_func cls dbg (pre ++ f :: post) e w).2) =
    calls_of (events w) ++ zip (pre ++ [f]) (e :: outputs simp_func (self w) pre e).
Proof.
  revert e w. induction pre as [|g pre IH]; intros e w Hkept Hchange.
  { simpl in *. rewrite decide_False by done. simpl.
    split; [done|]. apply after_call_calls. }
  simpl in Hkept, Hchange. apply Forall_cons in Hkept as [Hcls Hkept].
  rewrite <-app_comm_cons, apply_simp_loop_cons, decide_True by done.
  specialize (IH (simp_func g (self w) e) (after_call simp_func dbg g e w)).
  rewrite after_call_self, after_call_calls in IH.
  destruct (IH Hkept Hchange) as [-> ->]. split; [done|].
  simpl. by rewrite <-app_assoc.
Qed.

(** C3: [apply_simp] folds the rule list registered for the class of the
    node, in the order of registration, each rule receiving the output of
    the one before it.  When no output has another class than the node, all
    rules run and the last output is returned.  When a rule returns a node
    of another class, that node is returned at once and the rules after it
    are not called.  The engine itself is left as it was. *)
Theorem apply_simp_threads_rules e w :
  let s := self w in
  let funcs := default [] (expr_simp_cb s !! class_of e) in
  let thread := foldl (λ acc f, simp_func f s acc) e in
  let kept := Forall (λ e', class_of e' = class_of e) in
  let result := apply_simp simp_func e w in
  self result.2 = s ∧
  (kept (outputs simp_func s funcs e) →
     result.1 = thread funcs ∧
     calls_of (events result.2) =
       calls_of (events w) ++ zip funcs (e :: outputs simp_func s funcs e)) ∧
  (∀ pre f post,
     funcs = pre ++ f :: post →
     kept (outputs simp_func s pre e) →
     class_of (simp_func f s (thread pre)) ≠ class_of e →
     result.1 = simp_func f s (thread pre) ∧
     calls_of (events result.2) =
       calls_of (events w) ++ zip (pre ++ [f]) (e :: outputs simp_func s pre e)).
Proof.
  intros s funcs thread kept result. split_and!.
  - apply apply_simp_frame.
  - intros Hkept. by apply apply_simp_loop_all.
  - intros pre f post Hfuncs Hkept Hchange.
    subst result. unfold apply_simp. fold s funcs. rewrite Hfuncs.
    by apply apply_simp_loop_break.
Qed.

(** C10: [apply_simp] dispatches on the exact class.  A node whose own
    class has no entry in the pass table is returned unchanged and the world
    stays as it is, so no rule is called: entries of other classes,
    superclasses included, play no part.  And the loop ends as soon as the
    class of a rule output is not the very class of the lookup: no relation
    between the two classes keeps it going. *)
Theorem apply_simp_exact_class e w :
  (expr_simp_cb (self w) !! class_of e = None →
     apply_simp simp_func e w = (e, w)) ∧
  (∀ f post,
     expr_simp_cb (self w) !! class_of e = Some (f :: post) →
     class_of (simp_func f (self w) e) ≠ class_of e →
     (apply_simp simp_func e w).1 = simp_func f (self w) e ∧
     calls_of (events (apply_simp simp_func e w).2) = calls_of (events w) ++ [(f, e)]).
Proof.
  split.
  - intros Hnone. unfold apply_simp. by rewrite Hnone.
  - intros f post Hsome Hne. unfold apply_simp. rewrite Hsome. simpl.
    rewrite decide_False by done. simpl. split; [done|].
    apply after_call_calls.
Qed.

(** ** [expr_simp] *)

Lemma expr_simp_S fuel e w :
  expr_simp simp_func (S fuel) e w =
    if decide (e ∈ simplified_exprs (self w)) then Some (e, w)
    else find_stable simp_func fuel e w.
Proof. done. Qed.

Lemma find_stable_S fuel e w :
  find_stable simp_func (S fuel) e w =
    let turn := canonize_and_simplify simp_func e w in
    if decide (turn.1 = e) then Some (turn.1, add_simplified turn.1 turn.2)
    else match expr_simp_wrapper simp_func fuel turn.1 None turn.2 with
         | None => None
         | Some (e', w') => find_stable simp_func fuel e' (add_simplified e' w')
         end.
Proof.
  simpl. unfold canonize_and_simplify.
  by destruct (apply_simp simp_func (canonize e) (emit (Canonized e) w)).
Qed.

Lemma expr_simp_wrapper_S fuel e callback w :
  expr_simp_wrapper simp_func (S fuel) e callback w =
    if decide (e ∈ simplified_exprs (self w)) then Some (e, w)
    else visit fuel (default (expr_simp simp_func fuel) callback) not_simplified e w.
Proof. done. Qed.

Lemma extends_refl w : extends w w.
Proof. by split_and!. Qed.

Lemma extends_trans w1 w2 w3 : extends w1 w2 → extends w2 w3 → extends w1 w3.
Proof.
  intros (Ht1 & Hl1 & Hc1) (Ht2 & Hl2 & Hc2). split_and!.
  - by rewrite Ht2.
  - by rewrite Hl2.
  - set_solver.
Qed.

Lemma extends_add_simplified e w : extends w (add_simplified e w).
Proof. split_and!; simpl; [done|done|set_solver]. Qed.

Lemma canonize_and_simplify_frame e w :
  self (canonize_and_simplify simp_func e w).2 = self w ∧
  log_level (canonize_and_simplify simp_func e w).2 = log_level w.
Proof.
  unfold canonize_and_simplify.
  by destruct (apply_simp_frame (canonize e) (emit (Canonized e) w)) as [-> ->].
Qed.

Lemma canonize_and_simplify_extends e w :
  extends w (canonize_and_simplify simp_func e w).2.
Proof.
  destruct (canonize_and_simplify_frame e w) as [Hs Hl].
  unfold extends. by rewrite Hs, Hl.
Qed.

Section Visit.
Context (callback : Expr → action Expr) (test_visit : Expr → world → bool).
Context (P : world → world → Prop).
Context (P_refl : ∀ w, P w w) (P_trans : ∀ w1 w2 w3, P w1 w2 → P w2 w3 → P w1 w3).

(** What every call of the callback preserves, the visit preserves. *)
Lemma visit_args_preserves (f : Expr → action Expr) args w args' w' :
  (∀ e w r w', f e w = Some (r, w') → P w w') →
  visit_args f args w = Some (args', w') → P w w'.
Proof.
  intros Hf. revert w args'. induction args as [|arg args IH]; intros w args'; simpl.
  { intros [= <- <-]. apply P_refl. }
  destruct (f arg w) as [[arg' w1]|] eqn:Harg; [|done].
  destruct (visit_args f args w1) as [[args1 w2]|] eqn:Hargs; [|done].
  intros [= <- <-]. eapply P_trans; [by eapply Hf|by eapply IH].
Qed.

Lemma visit_preserves depth e w r w' :
  (∀ e w r w', callback e w = Some (r, w') → P w w') →
  visit depth callback test_visit e w = Some (r, w') → P w w'.
Proof.
  intros Hcb. revert e w r w'. induction depth as [|depth IH]; intros e w r w'; [done|].
  simpl. destruct (test_visit e w); [|intros [= <- <-]; apply P_refl].
  destruct (visit_args _ (args_of e) w) as [[args w1]|] eqn:Hargs; [|done].
  intros Hlast. eapply P_trans; [|by eapply Hcb].
  eapply visit_args_preserves; [|done]. apply IH.
Qed.
End Visit.

(** Along a run the pass table and the level stay and the cache grows. *)
Lemma simplification_extends fuel :
  (∀ e w r w', expr_simp simp_func fuel e w = Some (r, w') → extends w w') ∧
  (∀ e w r w', find_stable simp_func fuel e w = Some (r, w') → extends w w') ∧
  (∀ e w r w', expr_simp_wrapper simp_func fuel e None w = Some (r, w') → extends w w').
Proof.
  induction fuel as [|fuel (IHs & IHf & IHw)]; [done|]. split_and!; intros e w r w'.
  - rewrite expr_simp_S. case_decide; [intros [= <- <-]; apply extends_refl|apply IHf].
  - rewrite find_stable_S. simpl. case_decide.
    + intros [= <- <-]. eapply extends_trans; [apply canonize_and_simplify_extends|].
      apply extends_add_simplified.
    + destruct (expr_simp_wrapper _ _ _ _ _) as [[e1 w1]|] eqn:Hw; [|done].
      intros Hloop.
      eapply extends_trans; [apply canonize_and_simplify_extends|].
      eapply extends_trans; [by eapply IHw|].
      eapply extends_trans; [apply extends_add_simplified|by eapply IHf].
  - rewrite expr_simp_wrapper_S. case_decide; [intros [= <- <-]; apply extends_refl|].
    simpl. apply visit_preserves; [apply extends_refl|apply extends_trans|apply IHs].
Qed.

(** A run that returned returns the same with more fuel: [None] only ever
    says that the bound was too small. *)
Lemma visit_args_more (f g : Expr → action Expr) args w out :
  (∀ e w out, f e w = Some out → g e w = Some out) →
  visit_args f args w = Some out → visit_args g args w = Some out.
Proof.
  intros Hfg. revert w out. induction args as [|arg args IH]; intros w out; simpl; [done|].
  destruct (f arg w) as [[arg' w1]|] eqn:Harg; [|done]. rewrite (Hfg _ _ _ Harg).
  destruct (visit_args f args w1) as [[args' w2]|] eqn:Hargs; [|done].
  by rewrite (IH _ _ Hargs).
Qed.

Lemma visit_more depth depth' (callback callback' : Expr → action Expr) test_visit e w out :
  (depth ≤ depth')%nat →
  (∀ e w out, callback e w = Some out → callback' e w = Some out) →
  visit depth callback test_visit e w = Some out →
  visit depth' callback' test_visit e w = Some out.
Proof.
  intros Hle Hcb. revert depth' Hle e w out.
  induction depth as [|depth IH]; intros depth' Hle e w out; [done|].
  destruct depth' as [|depth']; [lia|]. simpl.
  destruct (test_visit e w); [|done].
  destruct (visit_args (visit depth callback test_visit) (args_of e) w)
    as [[args w1]|] eqn:Hargs; [|done].
  rewrite (visit_args_more _ (visit depth' callback' test_visit) _ _ _
             (λ e' w' out', IH depth' ltac:(lia) e' w' out') Hargs).
  apply Hcb.
Qed.

Lemma more_fuel fuel fuel' :
  (fuel ≤ fuel')%nat →
  (∀ e w out, expr_simp simp_func fuel e w = Some out →
              expr_simp simp_func fuel' e w = Some out) ∧
  (∀ e w out, find_stable simp_func fuel e w = Some out →
              find_stable simp_func fuel' e w = Some out) ∧
  (∀ e w out, expr_simp_wrapper simp_func fuel e None w = Some out →
              expr_simp_wrapper simp_func fuel' e None w = Some out).
Proof.
  revert fuel'. induction fuel as [|fuel IH]; intros fuel' Hle; [by split_and!|].
  destruct fuel' as [|fuel']; [lia|].
  destruct (IH fuel') as (IHs & IHf & IHw); [lia|].
  split_and!; intros e w out.
  - rewrite !expr_simp_S. case_decide; [done|apply IHf].
  - rewrite !find_stable_S. simpl. case_decide; [done|].
    destruct (expr_simp_wrapper simp_func fuel _ None _) as [[e1 w1]|] eqn:Hw; [|done].
    rewrite (IHw _ _ _ Hw). apply IHf.
  - rewrite !expr_simp_wrapper_S. case_decide; [done|]. simpl.
    apply visit_more; [lia|apply IHs].
Qed.

(** What [expr_simp] returns is in the cache. *)
Lemma find_stable_recorded fuel e w r w' :
  find_stable simp_func fuel e w = Some (r, w') → r ∈ simplified_exprs (self w').
Proof.
  revert e w. induction fuel as [|fuel IH]; intros e w; [done|].
  rewrite find_stable_S. simpl. case_decide.
  - intros [= <- <-]. simpl. set_solver.
  - destruct (expr_simp_wrapper _ _ _ _ _) as [[e1 w1]|]; [apply IH|done].
Qed.

Lemma expr_simp_recorded fuel e w r w' :
  expr_simp simp_func fuel e w = Some (r, w') → r ∈ simplified_exprs (self w').
Proof.
  destruct fuel as [|fuel]; [done|]. rewrite expr_simp_S. case_decide.
  - by intros [= <- <-].
  - apply find_stable_recorded.
Qed.

(** C4: the cache is sound.  When [expr_simp] returns [r], then [r] is in
    the cache; and from then on, as long as [enable_passes] is not called
    (the world only [extends]), [expr_simp] and [expr_simp_wrapper] return
    [r] as it is and leave the world as it is: no event, hence no rule call
    and no call of [canonize]. *)
Theorem expr_simp_cache_sound fuel n w r w' :
  expr_simp simp_func fuel n w = Some (r, w') →
  r ∈ simplified_exprs (self w') ∧
  ∀ w'', extends w' w'' →
    (∀ fuel', expr_simp simp_func (S fuel') r w'' = Some (r, w'')) ∧
    (∀ fuel' callback,
       expr_simp_wrapper simp_func (S fuel') r callback w'' = Some (r, w'')).
Proof.
  intros Hrun. pose proof (expr_simp_recorded _ _ _ _ _ Hrun) as Hin.
  split; [done|]. intros w'' (_ & _ & Hsub).
  assert (r ∈ simplified_exprs (self w'')) by set_solver.
  split; intros fuel'; [|intros callback].
  - rewrite expr_simp_S. by rewrite decide_True.
  - rewrite expr_simp_wrapper_S. by rewrite decide_True.
Qed.

(** The node that the loop returns is left unchanged by a further turn. *)
Lemma find_stable_fixpoint fuel e w r w' :
  find_stable simp_func fuel e w = Some (r, w') →
  ∃ wi, extends w wi ∧ (canonize_and_simplify simp_func r wi).1 = r.
Proof.
  revert e w. induction fuel as [|fuel IH]; intros e w; [done|].
  rewrite find_stable_S. simpl. case_decide as Heq.
  - intros [= <- <-]. exists w. split; [apply extends_refl|]. by rewrite Heq.
  - destruct (expr_simp_wrapper _ _ _ _ _) as [[e1 w1]|] eqn:Hw; [|done].
    intros (wi & Hext & Hfix)%IH. exists wi. split; [|done].
    eapply extends_trans; [apply canonize_and_simplify_extends|].
    eapply extends_trans; [by eapply simplification_extends|].
    eapply extends_trans; [apply extends_add_simplified|done].
Qed.

(** The node that [apply_simp] returns depends on the world only through
    what the rules make of the engine. *)
Lemma apply_simp_loop_fst cls dbg1 dbg2 funcs e w1 w2 :
  (∀ f e', simp_func f (self w1) e' = simp_func f (self w2) e') →
  (apply_simp_loop simp_func cls dbg1 funcs e w1).1 =
  (apply_simp_loop simp_func cls dbg2 funcs e w2).1.
Proof.
  revert e w1 w2. induction funcs as [|f funcs IH]; intros e w1 w2 Hsame; [done|].
  rewrite !apply_simp_loop_cons, Hsame. case_decide; [|done].
  apply IH. intros g e'. by rewrite !after_call_self.
Qed.

Lemma canonize_and_simplify_fst e w1 w2 :
  expr_simp_cb (self w1) = expr_simp_cb (self w2) →
  (∀ f e', simp_func f (self w1) e' = simp_func f (self w2) e') →
  (canonize_and_simplify simp_func e w1).1 = (canonize_and_simplify simp_func e w2).1.
Proof.
  intros Htable Hsame. unfold canonize_and_simplify, apply_simp. simpl.
  rewrite Htable. by apply apply_simp_loop_fst.
Qed.

(** C7: simplification is idempotent.  On one engine, simplifying the node
    that [expr_simp] returned returns that node again, so the two calls in a
    row give what the first call gives.  On new engines with the same pass
    table, provided the rules do not read the cache: the node that
    [expr_simp] returns for [n] is returned unchanged when it is simplified
    in its turn. *)
Theorem expr_simp_idempotent fuel n w r w' :
  expr_simp simp_func fuel n w = Some (r, w') →
  (∀ fuel',
     (expr_simp simp_func fuel n w ≫= λ '(r1, w1), expr_simp simp_func (S fuel') r1 w1)
     = Some (r, w')) ∧
  (rules_ignore_cache simp_func →
   simplified_exprs (self w) = ∅ →
   ∀ lvl evs fuel',
     let fresh := World (Simplifier (expr_simp_cb (self w)) ∅) lvl evs in
     ∃ w'', expr_simp simp_func (S (S fuel')) r fresh = Some (r, w'')).
Proof.
  intros Hrun. split.
  - intros fuel'. rewrite Hrun. simpl.
    rewrite decide_True; [done|]. by eapply expr_simp_recorded.
  - intros Hrules Hempty lvl evs fuel' fresh.
    destruct fuel as [|fuel]; [done|]. rewrite expr_simp_S in Hrun.
    rewrite decide_False in Hrun by (rewrite Hempty; set_solver).
    apply find_stable_fixpoint in Hrun as (wi & (Htable & _ & _) & Hfix).
    rewrite expr_simp_S, decide_False by (simpl; set_solver).
    rewrite find_stable_S. simpl.
    assert ((canonize_and_simplify simp_func r fresh).1 = r) as Hfresh.
    { rewrite <-Hfix at 2. apply canonize_and_simplify_fst; [by rewrite Htable|].
      intros f e'. apply Hrules. by rewrite Htable. }
    rewrite decide_True by done. rewrite Hfresh. eauto.
Qed.

(** ** Determinism *)

Lemma canonize_and_simplify_same e w1 w2 :
  self w1 = self w2 →
  (canonize_and_simplify simp_func e w1).1 = (canonize_and_simplify simp_func e w2).1 ∧
  self (canonize_and_simplify simp_func e w1).2 =
    self (canonize_and_simplify simp_func e w2).2.
Proof.
  intros Hself. split.
  - apply canonize_and_simplify_fst; [by rewrite Hself|].
    intros f e'. by rewrite Hself.
  - destruct (canonize_and_simplify_frame e w1) as [-> _].
    by destruct (canonize_and_simplify_frame e w2) as [-> _].
Qed.

Lemma same_outcome_Some {A} (a : A) w1 w2 :
  self w1 = self w2 → same_outcome (Some (a, w1)) (Some (a, w2)).
Proof. done. Qed.

Section VisitSame.
Context (callback : Expr → action Expr) (test_visit : Expr → world → bool).
Context (test_visit_same :
  ∀ e w1 w2, self w1 = self w2 → test_visit e w1 = test_visit e w2).

Lemma visit_args_same (f : Expr → action Expr) args w1 w2 :
  (∀ e w1 w2, self w1 = self w2 → same_outcome (f e w1) (f e w2)) →
  self w1 = self w2 →
  same_outcome (visit_args f args w1) (visit_args f args w2).
Proof.
  intros Hf. revert w1 w2.
  induction args as [|arg args IH]; intros w1 w2 Hself; simpl; [done|].
  pose proof (Hf arg w1 w2 Hself) as Harg.
  destruct (f arg w1) as [[a1 v1]|], (f arg w2) as [[a2 v2]|]; try done.
  destruct Harg as [-> Hv]. pose proof (IH v1 v2 Hv) as Hargs.
  destruct (visit_args f args v1) as [[l1 u1]|],
           (visit_args f args v2) as [[l2 u2]|]; try done.
  destruct Hargs as [-> Hu]. done.
Qed.

Lemma visit_same depth e w1 w2 :
  (∀ e w1 w2, self w1 = self w2 → same_outcome (callback e w1) (callback e w2)) →
  self w1 = self w2 →
  same_outcome (visit depth callback test_visit e w1)
               (visit depth callback test_visit e w2).
Proof.
  intros Hcb. revert e w1 w2.
  induction depth as [|depth IH]; intros e w1 w2 Hself; [done|]. simpl.
  rewrite (test_visit_same e w1 w2 Hself). destruct (test_visit e w2); [|done].
  pose proof (visit_args_same _ (args_of e) w1 w2 IH Hself) as Hargs.
  destruct (visit_args _ (args_of e) w1) as [[l1 u1]|],
           (visit_args _ (args_of e) w2) as [[l2 u2]|]; try done.
  destruct Hargs as [-> Hu]. by apply Hcb.
Qed.
End VisitSame.

Lemma simplification_same fuel :
  (∀ e w1 w2, self w1 = self w2 →
     same_outcome (expr_simp simp_func fuel e w1) (expr_simp simp_func fuel e w2)) ∧
  (∀ e w1 w2, self w1 = self w2 →
     same_outcome (find_stable simp_func fuel e w1) (find_stable simp_func fuel e w2)) ∧
  (∀ e w1 w2, self w1 = self w2 →
     same_outcome (expr_simp_wrapper simp_func fuel e None w1)
                  (expr_simp_wrapper simp_func fuel e None w2)).
Proof.
  induction fuel as [|fuel (IHs & IHf & IHw)]; [done|].
  split_and!; intros e w1 w2 Hself.
  - rewrite !expr_simp_S, Hself. case_decide; [done|by apply IHf].
  - rewrite !find_stable_S. simpl.
    destruct (canonize_and_simplify_same e w1 w2 Hself) as [Hfst Hsnd].
    rewrite Hfst. case_decide; [simpl; by rewrite Hsnd|].
    pose proof (IHw (canonize_and_simplify simp_func e w2).1 _ _ Hsnd) as Hrec.
    destruct (expr_simp_wrapper _ _ _ _ (canonize_and_simplify simp_func e w1).2)
      as [[e1 v1]|],
      (expr_simp_wrapper _ _ _ _ (canonize_and_simplify simp_func e w2).2)
      as [[e2 v2]|]; try done.
    destruct Hrec as [-> Hv]. apply IHf. simpl. by rewrite Hv.
  - rewrite !expr_simp_wrapper_S, Hself. case_decide; [done|]. simpl.
    apply visit_same; [|done|done].
    intros e' v1 v2 Hv. unfold not_simplified. by rewrite Hv.
Qed.

(** C8: simplification is deterministic.  Two runs on the same node, from
    engines with the same pass table and the same cache (two new engines
    with equal pass tables, for one), have the same outcome, the node
    returned and the engine left behind, whatever the level of the logger
    and whatever was logged before in either run. *)
Theorem expr_simp_deterministic fuel n w1 w2 :
  self w1 = self w2 →
  same_outcome (expr_simp simp_func fuel n w1) (expr_simp simp_func fuel n w2) ∧
  same_outcome (expr_simp_wrapper simp_func fuel n None w1)
               (expr_simp_wrapper simp_func fuel n None w2).
Proof. intros Hself. split; by apply simplification_same. Qed.

(** ** The loop of [expr_simp] *)

(** C1, as the code has it: a turn of the loop calls [canonize] on the
    current node [x] and runs [apply_simp] on the canonical form.  The loop
    ends in that turn exactly when the result [e_new] equals [x] itself, the
    node as it was before [canonize]; it then records [e_new] in the cache
    and returns it.  Otherwise the loop goes on with what
    [expr_simp_wrapper] makes of [e_new].  For a node that is its own
    canonical form, the test is the comparison with the canonical form. *)
Theorem find_stable_turn fuel x w :
  let e_new := (canonize_and_simplify simp_func x w).1 in
  let w2 := (canonize_and_simplify simp_func x w).2 in
  canonize_and_simplify simp_func x w =
    apply_simp simp_func (canonize x) (emit (Canonized x) w) ∧
  ((∃ out, find_stable simp_func 1 x w = Some out) ↔ e_new = x) ∧
  (e_new = x →
     find_stable simp_func (S fuel) x w = Some (e_new, add_simplified e_new w2) ∧
     e_new ∈ simplified_exprs (self (add_simplified e_new w2))) ∧
  (e_new ≠ x →
     find_stable simp_func (S fuel) x w =
       '(x', w3) ← expr_simp_wrapper simp_func fuel e_new None w2;
       find_stable simp_func fuel x' (add_simplified x' w3)) ∧
  (canonize x = x → (e_new = canonize x ↔ e_new = x)).
Proof.
  intros e_new w2. split_and!.
  - done.
  - rewrite find_stable_S. simpl. fold e_new. case_decide; [naive_solver|].
    split; [|done]. intros [out Hout]. by destruct (canonize_and_simplify _ _ _).2.
  - intros Heq. rewrite find_stable_S. simpl. fold e_new w2.
    rewrite decide_True by done. split; [done|]. simpl. set_solver.
  - intros Hne. rewrite find_stable_S. simpl. fold e_new w2.
    rewrite decide_False by done.
    by destruct (expr_simp_wrapper _ _ _ _ _) as [[??]|].
  - by intros ->.
Qed.

(** C2, as the code has it: in a turn of the loop in which the rewrite
    changed the node, nothing is recorded before the recursion starts (the
    cache is still the one the turn began with); the loop calls
    [expr_simp_wrapper] on the changed node [e_new] and goes on, with the
    node [x'] that this call returned, from a world that differs from the
    one the call left in the cache only, to which [x'] and nothing else was
    added.  So the changed node [e_new] is in the cache after that step
    exactly when the recursion returned [e_new] itself or had recorded it on
    its own; and [x'] is in the cache when [expr_simp] returns. *)
Theorem find_stable_records_after_recursion fuel x w r w' :
  let e_new := (canonize_and_simplify simp_func x w).1 in
  let w2 := (canonize_and_simplify simp_func x w).2 in
  e_new ≠ x →
  find_stable simp_func (S fuel) x w = Some (r, w') →
  simplified_exprs (self w2) = simplified_exprs (self w) ∧
  ∃ x' w3 w4,
    expr_simp_wrapper simp_func fuel e_new None w2 = Some (x', w3) ∧
    find_stable simp_func (S fuel) x w = find_stable simp_func fuel x' w4 ∧
    expr_simp_cb (self w4) = expr_simp_cb (self w3) ∧
    log_level w4 = log_level w3 ∧
    events w4 = events w3 ∧
    (∀ e, e ∈ simplified_exprs (self w4) ↔ e = x' ∨ e ∈ simplified_exprs (self w3)) ∧
    (e_new ∈ simplified_exprs (self w4) ↔
     x' = e_new ∨ e_new ∈ simplified_exprs (self w3)) ∧
    x' ∈ simplified_exprs (self w').
Proof.
  intros e_new w2 Hne Hrun. pose proof Hrun as Hloop. revert Hloop.
  rewrite find_stable_S. simpl. fold e_new w2.
  rewrite decide_False by done.
  destruct (expr_simp_wrapper _ _ _ _ _) as [[x' w3]|] eqn:Hw; [|done].
  intros Hloop. split.
  - subst w2. by destruct (canonize_and_simplify_frame x w) as [-> _].
  - exists x', w3, (add_simplified x' w3).
    assert (∀ e, e ∈ simplified_exprs (self (add_simplified x' w3)) ↔
                 e = x' ∨ e ∈ simplified_exprs (self w3)) as Hadded.
    { intros e. simpl. by rewrite elem_of_union, elem_of_singleton. }
    split_and!; [done|done|done|done|done|done| |].
    + rewrite Hadded. naive_solver.
    + destruct (simplification_extends fuel) as (_ & Hf & _).
      destruct (Hf _ _ _ _ Hloop) as (_ & _ & Hsub). apply Hsub, Hadded. by left.
Qed.

(** X3: [expr_simp] and [expr_simp_wrapper] never write the pass table or
    the level of the logger, and never remove a node from the cache: the world
    after a run [extends] the world before it. *)
Theorem run_extends fuel e w r w' :
  (expr_simp simp_func fuel e w = Some (r, w') → extends w w') ∧
  (expr_simp_wrapper simp_func fuel e None w = Some (r, w') → extends w w').
Proof.
  destruct (simplification_extends fuel) as (Hs & _ & Hw).
  split; [apply Hs|apply Hw].
Qed.

End Facts.

(** ** [enable_passes] on objects *)
Section ObjectFacts.
Import Objects.
Context {Expr Cls Callback : Type}.
Context `{Countable Expr} `{Countable Cls} `{EqDecision Callback}.

Local Abbreviation store := (@store Expr Cls Callback _ _ _ _).

Implicit Types (h : store) (self : instance) (cb : gmap Cls ref)
  (items : list (Cls * ref)) (k : Cls) (r v d passes : ref).

(** The list that a reference of a dict leads to. *)
Local Abbreviation deref h o := (o ≫= (lists h !!.)).

Lemma new_list_fresh (l : list Callback) h : lists h !! (new_list l h).1 = None.
Proof. simpl. apply not_elem_of_dom, is_fresh. Qed.

Lemma enable_items_spec self items h cb :
  NoDup items.*1 →
  dicts h !! expr_simp_cb self = Some cb →
  map_Forall (λ _ r, is_Some (lists h !! r)) cb →
  Forall (λ kv, is_Some (lists h !! kv.2)) items →
  ∃ h' cb',
    enable_items self items h = Some h' ∧
    lists h ⊆ lists h' ∧
    dicts h' = <[expr_simp_cb self := cb']> (dicts h) ∧
    sets h' = sets h ∧
    ∀ k, deref h' (cb' !! k) =
           match (list_to_map items : gmap Cls ref) !! k with
           | Some v => Some (fast_unify (default [] (deref h (cb !! k)) ++
                                        default [] (lists h !! v)))
           | None => deref h (cb !! k)
           end.
Proof.
  revert h cb. induction items as [|[k0 v0] items IH]; intros h cb Hnd Hcb Hok Hitems.
  { exists h, cb. simpl. split_and!; [done|done| |done|].
    - by rewrite insert_id.
    - intros k. by rewrite lookup_empty. }
  apply NoDup_cons in Hnd as [Hk0 Hnd].
  apply Forall_cons in Hitems as [[lv Hv0] Hitems]. simpl in Hv0.
  set (old := default [] (deref h (cb !! k0))).
  set (r0 := (new_list (fast_unify (old ++ lv)) h).1).
  set (h1 := Store (<[r0 := fast_unify (old ++ lv)]> (lists h))
                   (<[expr_simp_cb self := <[k0 := r0]> cb]> (dicts h)) (sets h)).
  assert (lists h !! r0 = None) as Hfresh by apply new_list_fresh.
  assert (enable_item self h (k0, v0) = Some h1) as Hstep.
  { unfold enable_item. rewrite Hcb. simpl.
    assert (match cb !! k0 with Some r => lists h !! r | None => Some [] end = Some old)
      as ->.
    { subst old. destruct (cb !! k0) as [r|] eqn:Hk; [|done].
      destruct (Hok k0 r Hk) as [l Hl]. simpl. by rewrite Hl. }
    simpl. by rewrite Hv0. }
  assert (lists h ⊆ lists h1) as Hsub by (by apply insert_subseteq).
  destruct (IH h1 (<[k0 := r0]> cb)) as (h' & cb' & Hrun & Hsub' & Hdicts & Hsets & Hkeys).
  - done.
  - simpl. by rewrite lookup_insert_eq.
  - apply map_Forall_insert_2.
    + simpl. rewrite lookup_insert_eq. eauto.
    + intros k r Hk. destruct (Hok k r Hk) as [l Hl]. exists l.
      by eapply lookup_weaken.
  - eapply Forall_impl; [done|]. intros [k v] [l Hl]. exists l.
    by eapply lookup_weaken.
  - exists h', cb'. split_and!.
    + simpl. by rewrite Hstep.
    + by etrans.
    + rewrite Hdicts. simpl. by rewrite insert_insert_eq.
    + by rewrite Hsets.
    + intros k. rewrite Hkeys, list_to_map_cons.
      assert (∀ r l, lists h !! r = Some l → lists h1 !! r = Some l) as Hkeep.
      { intros r l Hl. by eapply lookup_weaken. }
      destruct (decide (k = k0)) as [->|Hne].
      * rewrite (not_elem_of_list_to_map_1 _ k0) by done.
        rewrite !lookup_insert_eq. simpl. rewrite lookup_insert_eq.
        by rewrite Hv0.
      * rewrite !lookup_insert_ne by done.
        assert (deref h1 (cb !! k) = deref h (cb !! k)) as ->.
        { destruct (cb !! k) as [r|] eqn:Hk; [|done].
          destruct (Hok k r Hk) as [l Hl]. cbn [mbind option_bind].
          by rewrite Hl, (Hkeep _ _ Hl). }
        destruct (list_to_map items !! k) as [v|] eqn:Hv; [|done].
        apply elem_of_list_to_map_2 in Hv.
        rewrite Forall_forall in Hitems. destruct (Hitems _ Hv) as [l Hl].
        simpl in Hl. by rewrite Hl, (Hkeep _ _ Hl).
Qed.

(** What a call of [enable_passes] on well-formed objects does. *)
Lemma enable_passes_spec self passes h refs cb :
  dicts h !! passes = Some refs →
  map_Forall (λ _ r, is_Some (lists h !! r)) refs →
  dicts h !! expr_simp_cb self = Some cb →
  map_Forall (λ _ r, is_Some (lists h !! r)) cb →
  is_Some (sets h !! simplified_exprs self) →
  ∃ h' cb',
    enable_passes self passes h = Some h' ∧
    lists h ⊆ lists h' ∧
    dicts h' = <[expr_simp_cb self := cb']> (dicts h) ∧
    sets h' = <[simplified_exprs self := ∅]> (sets h) ∧
    ∀ k, deref h' (cb' !! k) =
           match refs !! k with
           | Some v => Some (fast_unify (default [] (deref h (cb !! k)) ++
                                        default [] (lists h !! v)))
           | None => deref h (cb !! k)
           end.
Proof.
  intros Hrefs Hrefs_ok Hcb Hcb_ok [old_set Hset].
  set (h0 := Store (lists h) (dicts h) (<[simplified_exprs self := ∅]> (sets h))).
  destruct (enable_items_spec self (map_to_list refs) h0 cb)
    as (h' & cb' & Hrun & Hsub & Hdicts & Hsets & Hkeys).
  - apply NoDup_fst_map_to_list.
  - done.
  - done.
  - apply Forall_forall. intros [k v] Hkv%elem_of_map_to_list.
    by apply (Hrefs_ok k v).
  - exists h', cb'. split_and!; [|done..|].
    + unfold enable_passes. rewrite Hset. cbn [mbind option_bind dicts].
      by rewrite Hrefs.
    + intros k. rewrite Hkeys. by rewrite list_to_map_to_list.
Qed.

(** C9, as the code has it: [enable_passes] changes no list object, and
    it changes the dict passed as its argument only when that dict is the
    very dict of the engine.  On well-formed objects the call succeeds, and
    afterwards: every list object that existed is as it was; when the
    argument is not the dict of the engine, the dict object of the argument
    is as it was, the same keys bound to the same list objects, and it holds
    for every class the rule list that it held; when the argument is the
    dict of the engine, it holds for every class the unified version of the
    list that it held, so that its rule lists are the ones before exactly
    when none of them had a duplicate. *)
Theorem enable_passes_keeps_argument self passes h :
  dict_ok h passes →
  dict_ok h (expr_simp_cb self) →
  is_Some (sets h !! simplified_exprs self) →
  ∃ h',
    enable_passes self passes h = Some h' ∧
    (∀ r l, lists h !! r = Some l → lists h' !! r = Some l) ∧
    (passes ≠ expr_simp_cb self →
     dicts h' !! passes = dicts h !! passes ∧
     ∀ k, entry_at h' passes k = entry_at h passes k) ∧
    (passes = expr_simp_cb self →
     ∀ k, entry_at h' passes k = fast_unify <$> entry_at h passes k) ∧
    ((passes = expr_simp_cb self → dict_unified h passes) →
     ∀ k, entry_at h' passes k = entry_at h passes k) ∧
    (passes = expr_simp_cb self →
     (∀ k, entry_at h' passes k = entry_at h passes k) ↔ dict_unified h passes).
Proof.
  unfold dict_ok. intros Hp Hd Hset.
  destruct (dicts h !! passes) as [refs|] eqn:Hrefs; [|done].
  destruct (dicts h !! expr_simp_cb self) as [cb|] eqn:Hcb; [|done].
  destruct (enable_passes_spec self passes h refs cb)
    as (h' & cb' & Hrun & Hsub & Hdicts & _ & Hkeys); [done..|].
  assert (∀ r l, lists h !! r = Some l → lists h' !! r = Some l) as Hkeep.
  { intros r l Hl. by eapply lookup_weaken. }
  assert (passes ≠ expr_simp_cb self →
          ∀ k, entry_at h' passes k = entry_at h passes k) as Hother.
  { intros Hne k. unfold entry_at.
    rewrite Hdicts, lookup_insert_ne, Hrefs by done. cbn [mbind option_bind].
    destruct (refs !! k) as [v|] eqn:Hv; [|done].
    destruct (Hp k v Hv) as [l Hl]. cbn [mbind option_bind].
    by rewrite Hl, (Hkeep _ _ Hl). }
  assert (passes = expr_simp_cb self →
          ∀ k, entry_at h' passes k = fast_unify <$> entry_at h passes k) as Hown.
  { intros Heq k. unfold entry_at. rewrite Hdicts, Hrefs.
    rewrite Heq, lookup_insert_eq. rewrite Heq, Hcb in Hrefs. injection Hrefs as ->.
    cbn [mbind option_bind]. rewrite Hkeys.
    destruct (refs !! k) as [v|] eqn:Hv; [|done].
    destruct (Hd k v Hv) as [l Hl]. cbn [mbind option_bind].
    rewrite Hl. simpl. by rewrite fast_unify_double. }
  assert ((passes = expr_simp_cb self → dict_unified h passes) →
          ∀ k, entry_at h' passes k = entry_at h passes k) as Hvalue.
  { intros Hunified k. destruct (decide (passes = expr_simp_cb self)) as [Heq|Hne];
      [|by apply Hother].
    rewrite (Hown Heq k). specialize (Hunified Heq k).
    destruct (entry_at h passes k) as [l|]; [|done]. simpl. f_equal.
    by apply fast_unify_id, Hunified. }
  exists h'. split_and!; [done|done| |done|done|].
  - intros Hne. split; [|by apply Hother]. by rewrite Hdicts, lookup_insert_ne.
  - intros Heq. split; [|by intros Hunified; apply Hvalue].
    intros Hsame k l Hl. specialize (Hsame k). rewrite (Hown Heq k), Hl in Hsame.
    injection Hsame as <-. apply fast_unify_NoDup.
Qed.

(** X2: the call on objects computes what [enable_passes] on values computes:
    the engine ends up with an empty cache and, for every class, with the
    rule list of the table of values. *)
Lemma enable_passes_refines self passes h :
  dict_ok h passes →
  dict_ok h (expr_simp_cb self) →
  is_Some (sets h !! simplified_exprs self) →
  ∃ h',
    enable_passes self passes h = Some h' ∧
    sets h' !! simplified_exprs self = Some ∅ ∧
    ∀ k, entry_at h' (expr_simp_cb self) k =
           match entry_at h passes k with
           | Some v =>
               Some (fast_unify (default [] (entry_at h (expr_simp_cb self) k) ++ v))
           | None => entry_at h (expr_simp_cb self) k
           end.
Proof.
  unfold dict_ok. intros Hp Hd Hset.
  destruct (dicts h !! passes) as [refs|] eqn:Hrefs; [|done].
  destruct (dicts h !! expr_simp_cb self) as [cb|] eqn:Hcb; [|done].
  destruct (enable_passes_spec self passes h refs cb)
    as (h' & cb' & Hrun & Hsub & Hdicts & Hsets & Hkeys); [done..|].
  exists h'. split_and!; [done| |].
  - by rewrite Hsets, lookup_insert_eq.
  - intros k. unfold entry_at. rewrite Hdicts, lookup_insert_eq, Hrefs, Hcb.
    cbn [mbind option_bind]. rewrite Hkeys.
    destruct (refs !! k) as [v|] eqn:Hv; [|done].
    destruct (Hp k v Hv) as [l Hl]. cbn [mbind option_bind]. by rewrite Hl.
Qed.

End ObjectFacts.

(** * Further properties of the engine *)

Section FastUnifyMore.
Context {A : Type} `{EqDecision A}.
Implicit Types old new seq : list A.

Lemma fast_unify_app old new :
  fast_unify (old ++ new) = fast_unify old ++ fast_unify_seen (old ++ []) new.
Proof. unfold fast_unify. by rewrite fast_unify_seen_app. Qed.

(** Unifying what was unified with more items is unifying all at once. *)
Lemma fast_unify_unified_app seq new :
  fast_unify (fast_unify seq ++ new) = fast_unify (seq ++ new).
Proof.
  rewrite !fast_unify_app. f_equal.
  - apply fast_unify_id, fast_unify_NoDup.
  - apply fast_unify_seen_ext. intros x. rewrite !app_nil_r. apply fast_unify_elem.
Qed.
End FastUnifyMore.

Section MoreFacts.
Context {Expr Cls Callback : Type}.
Context `{Countable Expr} `{Countable Cls} `{EqDecision Callback}.
Context `{!ExprNode Expr Cls}.

Local Abbreviation engine := (@ExpressionSimplifier Expr Cls Callback _ _ _ _).
Local Abbreviation table := (gmap Cls (list Callback)).

Context (simp_func : Callback → engine → Expr → Expr).

Local Abbreviation world := (@world Expr Cls Callback _ _ _ _).
Local Abbreviation action := (@action Expr Cls Callback _ _ _ _).

Implicit Types (s : engine) (w : world) (e r : Expr) (k cls : Cls)
  (funcs : list Callback) (passes cb : table).

(** ** [apply_simp], in every case *)

Lemma canonized_of_after_call dbg f e w :
  canonized_of (events (after_call simp_func dbg f e w)) = canonized_of (events w).
Proof.
  unfold after_call, canonized_of. destruct (_ && _); simpl;
    rewrite ?omap_app; simpl; by rewrite ?app_nil_r.
Qed.

Lemma debug_of_after_call dbg f e w :
  debug_of (events (after_call simp_func dbg f e w)) =
    debug_of (events w) ++
    (if dbg && bool_decide (e ≠ simp_func f (self w) e)
     then [(f, e, simp_func f (self w) e)] else []).
Proof.
  unfold after_call, debug_of. destruct (_ && _); simpl;
    rewrite ?omap_app; simpl; by rewrite ?app_nil_r.
Qed.

Lemma apply_simp_loop_stops cls dbg funcs e w :
  ∃ n,
    (n ≤ length funcs)%nat ∧
    (apply_simp_loop simp_func cls dbg funcs e w).1 =
      foldl (λ acc f, simp_func f (self w) acc) e (take n funcs) ∧
    calls_of (events (apply_simp_loop simp_func cls dbg funcs e w).2) =
      calls_of (events w) ++ zip (take n funcs) (e :: outputs simp_func (self w) funcs e) ∧
    (n < length funcs →
     class_of (apply_simp_loop simp_func cls dbg funcs e w).1 ≠ cls)%nat.
Proof.
  revert e w. induction funcs as [|f funcs IH]; intros e w.
  { exists 0%nat. simpl. rewrite app_nil_r. split_and!; [done..|lia]. }
  rewrite apply_simp_loop_cons. case_decide as Hcls.
  - destruct (IH (simp_func f (self w) e) (after_call simp_func dbg f e w))
      as (n & Hn & Hres & Hcalls & Hstop).
    rewrite after_call_self, after_call_calls in *.
    exists (S n). simpl. split_and!; [lia|done| |intros; apply Hstop; lia].
    rewrite Hcalls. by rewrite <-app_assoc.
  - exists 1%nat. simpl. split_and!; [lia|done| |done].
    apply (after_call_calls simp_func).
Qed.

(** X5: in every case [apply_simp] calls the first [n] rules registered for
    the class of the node, for some [n], in the order of registration, each
    once and each on the output of the one before it, and returns the output
    of the last of them; when it stops before the end of the list, the class
    of the node it returns is not the class of the lookup. *)
Theorem apply_simp_calls_a_prefix e w :
  let s := self w in
  let funcs := default [] (expr_simp_cb s !! class_of e) in
  let result := apply_simp simp_func e w in
  ∃ n,
    (n ≤ length funcs)%nat ∧
    result.1 = foldl (λ acc f, simp_func f s acc) e (take n funcs) ∧
    calls_of (events result.2) =
      calls_of (events w) ++ zip (take n funcs) (e :: outputs simp_func s funcs e) ∧
    (n < length funcs → class_of result.1 ≠ class_of e)%nat.
Proof. intros s funcs result. apply apply_simp_loop_stops. Qed.

Lemma apply_simp_loop_quiet cls dbg funcs e w :
  let w' := (apply_simp_loop simp_func cls dbg funcs e w).2 in
  events w `prefix_of` events w' ∧
  canonized_of (events w') = canonized_of (events w).
Proof.
  revert e w. induction funcs as [|f funcs IH]; intros e w; [done|].
  rewrite apply_simp_loop_cons.
  assert (events w `prefix_of` events (after_call simp_func dbg f e w)) as Hpre.
  { unfold after_call. destruct (_ && _); simpl.
    - rewrite <-app_assoc. by apply prefix_app_r.
    - by apply prefix_app_r. }
  case_decide; simpl.
  - destruct (IH (simp_func f (self w) e) (after_call simp_func dbg f e w)) as [Hp Hc].
    split; [by etrans|]. by rewrite Hc, canonized_of_after_call.
  - split; [done|apply canonized_of_after_call].
Qed.

(** X6: [apply_simp] writes nothing of the engine: the pass table and the
    cache after it are those before it, and so is the level of the logger; it
    never calls [canonize]; the events before it stay, in their order. *)
Theorem apply_simp_keeps_engine e w :
  let w' := (apply_simp simp_func e w).2 in
  expr_simp_cb (self w') = expr_simp_cb (self w) ∧
  simplified_exprs (self w') = simplified_exprs (self w) ∧
  log_level w' = log_level w ∧
  events w `prefix_of` events w' ∧
  canonized_of (events w') = canonized_of (events w).
Proof.
  intros w'. subst w'. unfold apply_simp.
  destruct (apply_simp_loop_frame simp_func (class_of e)
              (bool_decide (logging_DEBUG ≤ log_level w))
              (default [] (expr_simp_cb (self w) !! class_of e)) e w) as [Hs Hl].
  destruct (apply_simp_loop_quiet (class_of e)
              (bool_decide (logging_DEBUG ≤ log_level w))
              (default [] (expr_simp_cb (self w) !! class_of e)) e w) as [Hp Hc].
  by rewrite Hs, Hl.
Qed.

Lemma apply_simp_loop_debug cls funcs e w :
  ∃ calls,
    calls_of (events (apply_simp_loop simp_func cls
                        (bool_decide (logging_DEBUG ≤ log_level w)) funcs e w).2) =
      calls_of (events w) ++ calls ∧
    debug_of (events (apply_simp_loop simp_func cls
                        (bool_decide (logging_DEBUG ≤ log_level w)) funcs e w).2) =
      debug_of (events w) ++ omap (debug_line simp_func (log_level w) (self w)) calls.
Proof.
  revert e w. induction funcs as [|f funcs IH]; intros e w.
  { exists []. simpl. by rewrite !app_nil_r. }
  rewrite apply_simp_loop_cons.
  set (dbg := bool_decide (logging_DEBUG ≤ log_level w)).
  assert (debug_of (events (after_call simp_func dbg f e w)) =
          debug_of (events w) ++ omap (debug_line simp_func (log_level w) (self w)) [(f, e)])
    as Hdebug.
  { rewrite debug_of_after_call. simpl. unfold debug_line. simpl. fold dbg.
    by destruct (dbg && _). }
  case_decide; simpl.
  - specialize (IH (simp_func f (self w) e) (after_call simp_func dbg f e w)).
    rewrite after_call_self, after_call_log_level, after_call_calls, Hdebug in IH.
    fold dbg in IH. destruct IH as (calls & Hcalls & Hlines).
    exists ((f, e) :: calls). rewrite Hcalls, Hlines.
    rewrite <-!app_assoc. split; [done|]. f_equal.
    change ((f, e) :: calls) with ([(f, e)] ++ calls). by rewrite omap_app.
  - exists [(f, e)]. split; [apply (after_call_calls simp_func)|done].
Qed.

(** X7: the calls of [log_exprsimp.debug].  [apply_simp] calls it once for
    each rule call that changed the node, in the order of the rule calls, with
    the rule, the node before and the node after, provided the level of the
    logger is at least [DEBUG]; so it is called at the level [WARNING] that
    the file sets, and never when the level is below [DEBUG]. *)
Theorem apply_simp_debug_calls e w :
  let w' := (apply_simp simp_func e w).2 in
  ∃ calls,
    calls_of (events w') = calls_of (events w) ++ calls ∧
    debug_of (events w') =
      debug_of (events w) ++ omap (debug_line simp_func (log_level w) (self w)) calls ∧
    (log_level w < logging_DEBUG → debug_of (events w') = debug_of (events w)) ∧
    (logging_DEBUG ≤ log_level w →
     debug_of (events w') =
       debug_of (events w) ++
       omap (λ c, if bool_decide (c.2 ≠ simp_func c.1 (self w) c.2)
                  then Some (c.1, c.2, simp_func c.1 (self w) c.2) else None) calls).
Proof.
  intros w'. subst w'. unfold apply_simp.
  destruct (apply_simp_loop_debug (class_of e)
              (default [] (expr_simp_cb (self w) !! class_of e)) e w)
    as (calls & Hcalls & Hlines).
  exists calls. split_and!; [done|done| |].
  - intros Hlow. rewrite Hlines.
    assert (omap (debug_line simp_func (log_level w) (self w)) calls = []) as ->;
      [|by rewrite app_nil_r].
    clear -Hlow. induction calls as [|c calls IH]; [done|]. csimpl.
    unfold debug_line at 1. by rewrite bool_decide_eq_false_2 by lia.
  - intros Hhigh. rewrite Hlines. f_equal.
    apply list_omap_ext, Forall2_same_length_lookup_2; [done|].
    intros i c c' Hc Hc'. assert (c' = c) as -> by congruence.
    unfold debug_line. by rewrite (bool_decide_eq_true_2 _ Hhigh).
Qed.

(** ** [enable_passes], again *)

(** X8: [enable_passes] only adds.  The classes of the new pass table are
    those of the old one and those of [passes]; for every class, the rules of
    the new list are the rules of the old list and the rules that [passes]
    brings; with an empty [passes] the pass table stays as it is and only the
    cache is emptied.  On an engine whose lists are unified the new lists are
    unified again, and the old list of every class is the beginning of the new
    one: no rule that was enabled is removed or moved. *)
Theorem enable_passes_only_adds passes s :
  let s' := enable_passes passes s in
  dom (expr_simp_cb s') = dom (expr_simp_cb s) ∪ dom passes ∧
  (∀ k f, f ∈ default [] (expr_simp_cb s' !! k) ↔
          f ∈ default [] (expr_simp_cb s !! k) ∨ f ∈ default [] (passes !! k)) ∧
  (passes = ∅ → s' = Simplifier (expr_simp_cb s) ∅) ∧
  (unified s →
   unified s' ∧
   ∀ k, default [] (expr_simp_cb s !! k) `prefix_of` default [] (expr_simp_cb s' !! k)).
Proof.
  intros s'. subst s'. split_and!.
  - apply set_eq. intros k.
    rewrite elem_of_union, !elem_of_dom, enable_passes_lookup.
    destruct (passes !! k), (expr_simp_cb s !! k); rewrite <-?not_eq_None_Some; naive_solver.
  - intros k f. rewrite enable_passes_lookup.
    destruct (passes !! k) as [v|]; simpl.
    + by rewrite fast_unify_elem, elem_of_app.
    + set_solver.
  - intros ->. unfold enable_passes. by rewrite map_to_list_empty.
  - intros Hs. split; [by apply enable_passes_unified|]. intros k.
    rewrite enable_passes_lookup. destruct (passes !! k) as [v|]; [|done]. simpl.
    rewrite fast_unify_app. rewrite fast_unify_id; [by apply prefix_app_r|].
    destruct (expr_simp_cb s !! k) as [l|] eqn:Hl; simpl; [by eapply Hs|constructor].
Qed.

(** X9: enabling [A] and then [B] is, class by class, unifying the existing
    list, the list of [A] and the list of [B] in this order in one go. *)
Theorem enable_passes_in_sequence (A B : table) s :
  ∀ k, expr_simp_cb (enable_passes B (enable_passes A s)) !! k =
         match A !! k, B !! k with
         | Some a, Some b => Some (fast_unify (default [] (expr_simp_cb s !! k) ++ a ++ b))
         | Some a, None => Some (fast_unify (default [] (expr_simp_cb s !! k) ++ a))
         | None, Some b => Some (fast_unify (default [] (expr_simp_cb s !! k) ++ b))
         | None, None => expr_simp_cb s !! k
         end.
Proof.
  intros k. rewrite !enable_passes_lookup.
  destruct (A !! k) as [a|], (B !! k) as [b|]; simpl; try done.
  by rewrite fast_unify_unified_app, <-app_assoc.
Qed.

(** ** Stable states *)

Lemma stable_extends w w' e :
  rules_ignore_cache simp_func → extends w w' → stable simp_func w e → stable simp_func w' e.
Proof.
  intros Hrules (Htable & _ & _) Hstable. unfold stable in *.
  rewrite <-Hstable at 2. apply canonize_and_simplify_fst; [done|].
  intros f e'. by apply Hrules.
Qed.

Lemma cache_stable_grow w w' :
  rules_ignore_cache simp_func → extends w w' →
  (∀ e, e ∈ simplified_exprs (self w') →
        e ∈ simplified_exprs (self w) ∨ stable simp_func w' e) →
  cache_stable simp_func w → cache_stable simp_func w'.
Proof.
  intros Hrules Hext Hnew Hw e He.
  destruct (Hnew e He) as [Hold|Hst]; [|done].
  eapply stable_extends; [done..|]. by apply Hw.
Qed.

Lemma visit_recorded depth (callback : Expr → action Expr) e w r w' :
  (∀ e w r w', callback e w = Some (r, w') → r ∈ simplified_exprs (self w')) →
  visit depth callback not_simplified e w = Some (r, w') →
  r ∈ simplified_exprs (self w').
Proof.
  intros Hcb. destruct depth as [|depth]; [done|]. simpl.
  destruct (not_simplified e w) eqn:Hin.
  - destruct (visit_args _ _ _) as [[args w1]|]; [apply Hcb|done].
  - intros [= <- <-]. apply bool_decide_eq_false in Hin. by apply dec_stable.
Qed.

(** Along a run, the cache keeps holding stable states only. *)
Lemma simplification_stable fuel :
  rules_ignore_cache simp_func →
  (∀ e w r w', expr_simp simp_func fuel e w = Some (r, w') →
     (cache_stable simp_func w → cache_stable simp_func w') ∧
     r ∈ simplified_exprs (self w')) ∧
  (∀ e w r w', find_stable simp_func fuel e w = Some (r, w') →
     (cache_stable simp_func w → cache_stable simp_func w') ∧
     r ∈ simplified_exprs (self w')) ∧
  (∀ e w r w', expr_simp_wrapper simp_func fuel e None w = Some (r, w') →
     (cache_stable simp_func w → cache_stable simp_func w') ∧
     r ∈ simplified_exprs (self w')).
Proof.
  intros Hrules. induction fuel as [|fuel (IHs & IHf & IHw)]; [done|].
  split_and!; intros e w r w'.
  - rewrite expr_simp_S. case_decide; [by intros [= <- <-]|apply IHf].
  - rewrite find_stable_S. simpl.
    pose proof (canonize_and_simplify_extends simp_func e w) as Hext.
    destruct (canonize_and_simplify_frame simp_func e w) as [Hself _].
    assert (cache_stable simp_func w →
            cache_stable simp_func (canonize_and_simplify simp_func e w).2) as Hturn.
    { apply cache_stable_grow; [done..|]. intros x Hx. left. by rewrite <-Hself. }
    case_decide as Heq.
    + intros [= <- <-]. split; [|simpl; set_solver].
      intros Hw. apply (cache_stable_grow (canonize_and_simplify simp_func e w).2);
        [done|apply extends_add_simplified| |by apply Hturn].
      intros x Hx. simpl in Hx.
      apply elem_of_union in Hx as [->%elem_of_singleton|Hx]; [|by left]. right.
      eapply stable_extends; [done| |].
      * eapply extends_trans; [exact Hext|apply extends_add_simplified].
      * unfold stable. by rewrite Heq.
    + destruct (expr_simp_wrapper _ _ _ _ _) as [[e1 w1]|] eqn:Hrec; [|done].
      destruct (IHw _ _ _ _ Hrec) as [Hstable1 Hin1].
      intros Hloop. destruct (IHf _ _ _ _ Hloop) as [Hstable2 Hin2].
      split; [|done]. intros Hw. apply Hstable2.
      apply (cache_stable_grow w1); [done|apply extends_add_simplified| |auto].
      intros x Hx. simpl in Hx.
      apply elem_of_union in Hx as [->%elem_of_singleton|Hx]; by left.
  - rewrite expr_simp_wrapper_S. case_decide; [by intros [= <- <-]|]. simpl.
    intros Hvisit. split.
    + revert Hvisit.
      apply (visit_preserves _ _ (λ w w', cache_stable simp_func w → cache_stable simp_func w'));
        [auto|auto|]. intros e' v r' v' Hcb. by apply (IHs _ _ _ _ Hcb).
    + eapply visit_recorded; [|exact Hvisit].
      intros e' v r' v' Hcb. by apply (IHs _ _ _ _ Hcb).
Qed.

(** X10: [expr_simp] finds a stable state.  When the rules do not read the
    cache and every node of the cache is a stable state (as in a new engine,
    whose cache is empty), then the node that [expr_simp] returns is a stable
    state, one more [apply_simp] on its canonical form returns it, and the
    cache it leaves holds stable states only; the same goes for
    [expr_simp_wrapper] with its own callback. *)
Theorem expr_simp_finds_stable_state fuel e w r w' :
  rules_ignore_cache simp_func →
  cache_stable simp_func w →
  (expr_simp simp_func fuel e w = Some (r, w') →
   stable simp_func w' r ∧ cache_stable simp_func w') ∧
  (expr_simp_wrapper simp_func fuel e None w = Some (r, w') →
   stable simp_func w' r ∧ cache_stable simp_func w').
Proof.
  intros Hrules Hw. destruct (simplification_stable fuel Hrules) as (Hs & _ & Hwr).
  split; intros Hrun.
  - destruct (Hs _ _ _ _ Hrun) as [Hst Hin]. split; [|auto]. by apply Hst.
  - destruct (Hwr _ _ _ _ Hrun) as [Hst Hin]. split; [|auto]. by apply Hst.
Qed.

(** X11: the cache is sound for [__call__] too.  With its own callback,
    what [__call__] returns is in the cache; from then on, until
    [enable_passes], [__call__] returns that node as it is, with any callback,
    and leaves the world as it is. *)
Theorem call_cache_sound fuel n w r w' :
  call simp_func fuel n None w = Some (r, w') →
  r ∈ simplified_exprs (self w') ∧
  ∀ w'', extends w' w'' →
    ∀ fuel' callback, call simp_func (S fuel') r callback w'' = Some (r, w'').
Proof.
  unfold call. intros Hrun.
  assert (r ∈ simplified_exprs (self w')) as Hin.
  { destruct fuel as [|fuel]; [done|]. rewrite expr_simp_wrapper_S in Hrun.
    case_decide; [by injection Hrun as <- <-|]. simpl in Hrun.
    eapply visit_recorded; [|exact Hrun]. apply expr_simp_recorded. }
  split; [done|]. intros w'' (_ & _ & Hsub) fuel' callback.
  rewrite expr_simp_wrapper_S. rewrite decide_True; [done|set_solver].
Qed.

End MoreFacts.

(** ** Engines as objects *)
Section ObjectMore.
Import Objects.
Context {Expr Cls Callback : Type}.
Context `{Countable Expr} `{Countable Cls} `{EqDecision Callback}.

Local Abbreviation store := (@store Expr Cls Callback _ _ _ _).

Implicit Types (h : store) (o : instance) (k : Cls) (passes : ref).

(** X12: a new engine shares nothing.  [__init__] gives the engine a dict
    and a set that no object of the store is, both empty; enabling passes on
    the new engine leaves the dict, the rule lists and the set of every other
    engine as they were, and gives the new engine, for every class of
    [passes], the unified list of [passes]. *)
Theorem new_engine_is_independent h o passes :
  dict_ok h passes →
  dict_ok h (expr_simp_cb o) →
  is_Some (sets h !! simplified_exprs o) →
  let self := (init h).1 in
  let h1 := (init h).2 in
  expr_simp_cb self ≠ expr_simp_cb o ∧
  simplified_exprs self ≠ simplified_exprs o ∧
  expr_simp_cb self ≠ passes ∧
  dicts h1 !! expr_simp_cb self = Some ∅ ∧
  sets h1 !! simplified_exprs self = Some ∅ ∧
  ∃ h',
    enable_passes self passes h1 = Some h' ∧
    dicts h' !! expr_simp_cb o = dicts h !! expr_simp_cb o ∧
    sets h' !! simplified_exprs o = sets h !! simplified_exprs o ∧
    (∀ k, entry_at h' (expr_simp_cb o) k = entry_at h (expr_simp_cb o) k) ∧
    (∀ k, entry_at h' (expr_simp_cb self) k = fast_unify <$> entry_at h passes k).
Proof.
  intros Hp Ho Hset self h1. unfold dict_ok in Hp, Ho.
  destruct (dicts h !! passes) as [refs|] eqn:Hrefs; [|done].
  destruct (dicts h !! expr_simp_cb o) as [cbo|] eqn:Hcbo; [|done].
  set (d := fresh (dom (dicts h))). set (st := fresh (dom (sets h))).
  assert (dicts h !! d = None) as Hd by apply not_elem_of_dom, is_fresh.
  assert (sets h !! st = None) as Hst by apply not_elem_of_dom, is_fresh.
  assert (d ≠ expr_simp_cb o) as Hdo by congruence.
  assert (st ≠ simplified_exprs o) as Hsto by (destruct Hset; congruence).
  assert (d ≠ passes) as Hdp by congruence.
  split_and!; [done..| | |].
  - apply lookup_insert_eq.
  - apply lookup_insert_eq.
  - destruct (enable_passes_spec self passes h1 refs ∅)
      as (h' & cb' & Hrun & Hsub & Hdicts & Hsets & Hkeys).
    + simpl. by rewrite lookup_insert_ne.
    + done.
    + apply lookup_insert_eq.
    + apply map_Forall_empty.
    + simpl. rewrite lookup_insert_eq. eauto.
    + assert (∀ r l, lists h !! r = Some l → lists h' !! r = Some l) as Hkeep.
      { intros r l Hl. by eapply lookup_weaken. }
      exists h'. split_and!; [done| | | |].
      * rewrite Hdicts. simpl. by rewrite !lookup_insert_ne.
      * rewrite Hsets. simpl. by rewrite !lookup_insert_ne.
      * intros k. unfold entry_at. rewrite Hdicts. simpl.
        rewrite !lookup_insert_ne, Hcbo by done. cbn [mbind option_bind].
        destruct (cbo !! k) as [r|] eqn:Hr; [|done]. cbn [mbind option_bind].
        destruct (Ho k r Hr) as [l Hl]. by rewrite Hl, (Hkeep _ _ Hl).
      * intros k. unfold entry_at. rewrite Hdicts, Hrefs. simpl.
        rewrite lookup_insert_eq. cbn [mbind option_bind]. rewrite Hkeys.
        rewrite lookup_empty. cbn [mbind option_bind].
        destruct (refs !! k) as [v|] eqn:Hv; [|done].
        destruct (Hp k v Hv) as [l Hl]. simpl in Hl.
        change (lists h1) with (lists h). cbn [mbind option_bind]. by rewrite Hl.
Qed.

End ObjectMore.

(** * The properties at work on concrete nodes *)
Import Miasm.

Local Abbreviation test_world := (@world Expr ExprClass TestRule _ _ _ _).

(** The scenario of the spec: [2 + 3] is folded to [5]. *)
Example expr_simp_folds_constants :
  fst <$> expr_simp run_rule 20 two_plus_three (engine_with TEST_FOLDING logging_WARNING)
  = Some (EInt 5 32).
Proof. vm_compute. reflexivity. Qed.

(** A node is simplified differently once new passes are enabled: the
    engine without any pass keeps [2 + 3] and records it; after
    [enable_passes] the record is gone and [2 + 3] is folded. *)
Example enable_passes_invalidates :
  let w0 := engine_with ∅ logging_WARNING in
  ∃ w1,
    expr_simp run_rule 20 two_plus_three w0 = Some (two_plus_three, w1) ∧
    two_plus_three ∈ simplified_exprs (self w1) ∧
    fst <$> expr_simp run_rule 20 two_plus_three
              (World (enable_passes TEST_FOLDING (self w1)) logging_WARNING [])
    = Some (EInt 5 32).
Proof.
  intros w0. eexists. split_and!.
  - reflexivity.
  - simpl. set_solver.
  - vm_compute. reflexivity.
Qed.

(** C1 fails as stated.  Without any rule, [b + a] is rewritten to its
    canonical form [a + b], so the result equals the canonical node; yet the
    loop does not end in that turn: it recurses and takes another turn, as
    the calls of [canonize] show.  And with a rule that swaps the operands,
    the result for [b + a] is [b + a], which is not the canonical node
    [a + b]; yet the loop ends in that turn and returns [b + a]. *)
Lemma find_stable_compares_with_node_before_canonize :
  let w := engine_with ∅ logging_WARNING in
  let wc := engine_with TEST_SWAP logging_WARNING in
  ((canonize_and_simplify run_rule b_plus_a w).1 = canonize b_plus_a ∧
   find_stable run_rule 1 b_plus_a w = None ∧
   (λ out, (out.1, canonized_of (events out.2))) <$> find_stable run_rule 20 b_plus_a w
   = Some (a_plus_b, [b_plus_a; id_a; id_b; a_plus_b; a_plus_b])) ∧
  ((canonize_and_simplify run_rule b_plus_a wc).1 = b_plus_a ∧
   canonize b_plus_a = a_plus_b ∧
   a_plus_b ≠ b_plus_a ∧
   fst <$> find_stable run_rule 1 b_plus_a wc = Some b_plus_a).
Proof.
  intros w wc. split; split_and!; try (vm_compute; reflexivity).
  vm_compute. discriminate.
Qed.

(** C1 at [a + b] (the loop ends) and at [b + a] (it goes on). *)
Lemma find_stable_turn_witness :
  let w := engine_with ∅ logging_WARNING in
  (∃ out, find_stable run_rule 1 a_plus_b w = Some out) ∧
  find_stable run_rule 21 b_plus_a w =
    '(x', w3) ← expr_simp_wrapper run_rule 20 a_plus_b None
                  (canonize_and_simplify run_rule b_plus_a w).2;
    find_stable run_rule 20 x' (add_simplified x' w3).
Proof.
  intros w. split.
  - destruct (find_stable_turn run_rule 0 a_plus_b w) as (_ & Hends & _).
    apply Hends. vm_compute. reflexivity.
  - destruct (find_stable_turn run_rule 20 b_plus_a w) as (_ & _ & _ & Hgoes & _).
    apply Hgoes. vm_compute. discriminate.
Defined.

(** C2 fails as stated.  For [c + c], with [c] a condition on the constant
    1, the rewrite gives [c << 1]; the cache is still empty when the
    recursion into [c << 1] starts; the recursion returns [a << 1], which is
    what gets recorded; [c << 1] itself is not in the cache when [expr_simp]
    returns. *)
Lemma changed_node_is_not_recorded :
  let w := engine_with TEST_FOLDING logging_WARNING in
  let e_new := (canonize_and_simplify run_rule twice_cond w).1 in
  let w2 := (canonize_and_simplify run_rule twice_cond w).2 in
  e_new = EOp "<<" [cond_1; EInt 1 32] ∧
  e_new ≠ twice_cond ∧
  simplified_exprs (self w2) = ∅ ∧
  fst <$> expr_simp_wrapper run_rule 20 e_new None w2 = Some (EOp "<<" [id_a; EInt 1 32]) ∧
  (λ out, (out.1,
           bool_decide (EOp "<<" [id_a; EInt 1 32] ∈ simplified_exprs (self out.2)),
           bool_decide (e_new ∈ simplified_exprs (self out.2))))
    <$> expr_simp run_rule 21 twice_cond w
  = Some (EOp "<<" [id_a; EInt 1 32], true, false).
Proof.
  intros w e_new w2. split_and!; try (vm_compute; reflexivity).
  vm_compute. discriminate.
Qed.

(** C2 at [c + c], where the recursion returns another node than [e_new],
    and at [2 + 3], where [e_new] is [5] and the recursion returns it. *)
Lemma find_stable_records_after_recursion_witness :
  let w := engine_with TEST_FOLDING logging_WARNING in
  (∃ r w' x' w3 (w4 : test_world),
     find_stable run_rule 21 twice_cond w = Some (r, w') ∧
     expr_simp_wrapper run_rule 20 (canonize_and_simplify run_rule twice_cond w).1 None
       (canonize_and_simplify run_rule twice_cond w).2 = Some (x', w3) ∧
     ((canonize_and_simplify run_rule twice_cond w).1 ∈ simplified_exprs (self w4) ↔
      x' = (canonize_and_simplify run_rule twice_cond w).1 ∨
      (canonize_and_simplify run_rule twice_cond w).1 ∈ simplified_exprs (self w3)) ∧
     x' ∈ simplified_exprs (self w')) ∧
  (∃ r w' x' w3 (w4 : test_world),
     find_stable run_rule 21 two_plus_three w = Some (r, w') ∧
     expr_simp_wrapper run_rule 20 (canonize_and_simplify run_rule two_plus_three w).1 None
       (canonize_and_simplify run_rule two_plus_three w).2 = Some (x', w3) ∧
     ((canonize_and_simplify run_rule two_plus_three w).1 ∈ simplified_exprs (self w4) ↔
      x' = (canonize_and_simplify run_rule two_plus_three w).1 ∨
      (canonize_and_simplify run_rule two_plus_three w).1 ∈ simplified_exprs (self w3)) ∧
     x' ∈ simplified_exprs (self w')).
Proof.
  intros w. split.
  - returned r w' Hrun.
    assert ((canonize_and_simplify run_rule twice_cond w).1 ≠ twice_cond) as Hne
      by (vm_compute; discriminate).
    pose proof (find_stable_records_after_recursion run_rule 20 twice_cond w r w' Hne Hrun)
      as (_ & x' & w3 & w4 & Hrec & _ & _ & _ & _ & _ & Hiff & Hin).
    exists r, w', x', w3, w4. split_and!; [exact Hrun|exact Hrec|exact Hiff|exact Hin].
  - returned r w' Hrun.
    assert ((canonize_and_simplify run_rule two_plus_three w).1 ≠ two_plus_three) as Hne
      by (vm_compute; discriminate).
    pose proof (find_stable_records_after_recursion run_rule 20 two_plus_three w r w'
                  Hne Hrun)
      as (_ & x' & w3 & w4 & Hrec & _ & _ & _ & _ & _ & Hiff & Hin).
    exists r, w', x', w3, w4. split_and!; [exact Hrun|exact Hrec|exact Hiff|exact Hin].
Defined.

(** C3 at [c + c], where both rules of the class run, the second on the
    output of the first; and at a condition on a constant, where
    [select_branch] returns a branch, a node of another class, and
    [wrong_class], registered after it, is not called. *)
Lemma apply_simp_threads_rules_witness :
  let w := engine_with TEST_FOLDING logging_WARNING in
  let ww := engine_with TEST_WRONG logging_WARNING in
  ((apply_simp run_rule twice_cond w).1 = EOp "<<" [cond_1; EInt 1 32] ∧
   calls_of (events (apply_simp run_rule twice_cond w).2) =
     [(fold_add, twice_cond); (add_twice, twice_cond)]) ∧
  ((apply_simp run_rule cond_1 ww).1 = id_a ∧
   calls_of (events (apply_simp run_rule cond_1 ww).2) = [(select_branch, cond_1)]).
Proof.
  intros w ww. split.
  - destruct (apply_simp_threads_rules run_rule twice_cond w) as (_ & Hall & _).
    apply Hall. apply (bool_decide_unpack _). vm_compute. exact I.
  - destruct (apply_simp_threads_rules run_rule cond_1 ww) as (_ & _ & Hbreak).
    apply (Hbreak [] select_branch [wrong_class]).
    + vm_compute. reflexivity.
    + constructor.
    + vm_compute. discriminate.
Defined.

(** C10 at an [ExprAff] node, whose class is a subclass of the registered
    [ExprAssign]: nothing happens; and at an [ExprAssign] node that the first
    rule rebuilds as [ExprAff]: the loop ends there, and the rule registered
    after it is not called. *)
Lemma apply_simp_exact_class_witness :
  let w := engine_with TEST_ASSIGN logging_WARNING in
  issubclass ExprAff ExprAssign = true ∧
  expr_simp_cb (self w) !! ExprAssign = Some [assign_to_aff; wrong_class] ∧
  apply_simp run_rule (EAff id_a id_b) w = (EAff id_a id_b, w) ∧
  (apply_simp run_rule (EAssign id_a id_b) w).1 = EAff id_a id_b ∧
  calls_of (events (apply_simp run_rule (EAssign id_a id_b) w).2) =
    [(assign_to_aff, EAssign id_a id_b)].
Proof.
  intros w. split_and!.
  - reflexivity.
  - vm_compute. reflexivity.
  - destruct (apply_simp_exact_class run_rule (EAff id_a id_b) w) as [Hnone _].
    apply Hnone. vm_compute. reflexivity.
  - destruct (apply_simp_exact_class run_rule (EAssign id_a id_b) w) as [_ Hbreak].
    apply (Hbreak assign_to_aff [wrong_class]).
    + vm_compute. reflexivity.
    + vm_compute. discriminate.
  - destruct (apply_simp_exact_class run_rule (EAssign id_a id_b) w) as [_ Hbreak].
    apply (Hbreak assign_to_aff [wrong_class]).
    + vm_compute. reflexivity.
    + vm_compute. discriminate.
Defined.

(** C4 at [c + c]. *)
Lemma expr_simp_cache_sound_witness :
  let w := engine_with TEST_FOLDING logging_WARNING in
  ∃ r w',
    expr_simp run_rule 21 twice_cond w = Some (r, w') ∧
    r ∈ simplified_exprs (self w') ∧
    expr_simp run_rule 1 r w' = Some (r, w') ∧
    expr_simp_wrapper run_rule 1 r None w' = Some (r, w').
Proof.
  intros w. returned r w' Hrun. exists r, w'.
  destruct (expr_simp_cache_sound run_rule 21 twice_cond w r w' Hrun) as [Hin Hhit].
  destruct (Hhit w' (conj eq_refl (conj eq_refl (reflexivity _)))) as [Hs Hw].
  split_and!; [exact Hrun|exact Hin|apply Hs|apply Hw].
Defined.

(** C7 at [c + c]. *)
Lemma expr_simp_idempotent_witness :
  let w := engine_with TEST_FOLDING logging_WARNING in
  ∃ r w',
    expr_simp run_rule 21 twice_cond w = Some (r, w') ∧
    (expr_simp run_rule 21 twice_cond w ≫= λ '(r1, w1), expr_simp run_rule 1 r1 w1)
      = Some (r, w') ∧
    ∃ w'', expr_simp run_rule 2 r w = Some (r, w'').
Proof.
  intros w. returned r w' Hrun. exists r, w'.
  destruct (expr_simp_idempotent run_rule 21 twice_cond w r w' Hrun) as [Hsame Hfresh].
  split_and!; [exact Hrun|apply Hsame|].
  apply (Hfresh (λ f s1 s2 e _, eq_refl) eq_refl logging_WARNING [] 0%nat).
Defined.

(** C8 at [c + c]: the logger at [DEBUG] after an earlier event, and the
    logger at [WARNING]. *)
Lemma expr_simp_deterministic_witness :
  let s := enable_passes TEST_FOLDING new_engine in
  let w1 : test_world := World s logging_DEBUG [Canonized id_a] in
  let w2 : test_world := World s logging_WARNING [] in
  same_outcome (expr_simp run_rule 21 twice_cond w1) (expr_simp run_rule 21 twice_cond w2) ∧
  same_outcome (expr_simp_wrapper run_rule 21 twice_cond None w1)
               (expr_simp_wrapper run_rule 21 twice_cond None w2).
Proof.
  intros s w1 w2. apply (expr_simp_deterministic run_rule 21 twice_cond w1 w2).
  reflexivity.
Defined.

(** C9 fails as stated.  When the argument is the dict of the engine itself,
    the call writes it: both keys are bound to other list objects than
    before, and the list of [ExprOp], which had a duplicate, is another list
    than before.  The dict is written also on an engine built in the usual
    way, [PASS_COMMONS] enabled on a new engine, when its own dict is given
    to it: its keys are bound to other list objects, which hold the rules
    that the former ones hold. *)
Lemma enable_passes_writes_own_table :
  (∃ h',
     Objects.enable_passes Objects.simplifier_1
       (Objects.expr_simp_cb Objects.simplifier_1) Objects.store_1 = Some h' ∧
     Objects.dicts Objects.store_1 !! 1%positive =
       Some {[ ExprOp := 1%positive; ExprCond := 2%positive ]} ∧
     bool_decide (Objects.dicts h' !! 1%positive =
                  Objects.dicts Objects.store_1 !! 1%positive) = false ∧
     Objects.entry_at Objects.store_1 1%positive ExprOp =
       Some [Passes.simp_flags; Passes.simp_flags; Passes.simp_ext] ∧
     Objects.entry_at h' 1%positive ExprOp = Some [Passes.simp_flags; Passes.simp_ext] ∧
     Objects.entry_at h' 1%positive ExprCond =
       Objects.entry_at Objects.store_1 1%positive ExprCond) ∧
  (let own := Objects.expr_simp_cb Objects.simplifier in
   let run1 :=
     Objects.enable_passes Objects.simplifier Objects.PASS_COMMONS Objects.store_0 in
   let run2 := run1 ≫= Objects.enable_passes Objects.simplifier own in
   is_Some run2 ∧
   bool_decide ((λ h, Objects.dicts h !! own) <$> run2 =
                (λ h, Objects.dicts h !! own) <$> run1) = false ∧
   (λ h, Objects.entry_at h own ExprOp) <$> run2 =
     (λ h, Objects.entry_at h own ExprOp) <$> run1).
Proof.
  split.
  - eexists. split_and!; [reflexivity|reflexivity|vm_compute; reflexivity..].
  - intros own run1 run2. split_and!.
    + apply (bool_decide_unpack _). vm_compute. exact I.
    + vm_compute. reflexivity.
    + vm_compute. reflexivity.
Qed.

(** C9 at the constant [PASS_COMMONS], enabled on a new engine: the dict of
    the constant and its rule lists are as they were; and at the engine of
    the other example, given its own dict. *)
Lemma enable_passes_keeps_argument_witness :
  (∃ h',
     Objects.enable_passes Objects.simplifier Objects.PASS_COMMONS Objects.store_0 = Some h' ∧
     (∀ r l, Objects.lists Objects.store_0 !! r = Some l → Objects.lists h' !! r = Some l) ∧
     Objects.dicts h' !! Objects.PASS_COMMONS =
       Objects.dicts Objects.store_0 !! Objects.PASS_COMMONS ∧
     ∀ k, Objects.entry_at h' Objects.PASS_COMMONS k =
          Objects.entry_at Objects.store_0 Objects.PASS_COMMONS k) ∧
  (∃ h',
     Objects.enable_passes Objects.simplifier_1
       (Objects.expr_simp_cb Objects.simplifier_1) Objects.store_1 = Some h' ∧
     (∀ r l, Objects.lists Objects.store_1 !! r = Some l → Objects.lists h' !! r = Some l) ∧
     ∀ k, Objects.entry_at h' (Objects.expr_simp_cb Objects.simplifier_1) k =
          fast_unify <$>
            Objects.entry_at Objects.store_1 (Objects.expr_simp_cb Objects.simplifier_1) k).
Proof.
  split.
  - destruct (enable_passes_keeps_argument Objects.simplifier Objects.PASS_COMMONS
                Objects.store_0)
      as (h' & Hrun & Hlists & Hother & _ & _ & _).
    + apply (bool_decide_unpack _). vm_compute. exact I.
    + apply (bool_decide_unpack _). vm_compute. exact I.
    + eexists. reflexivity.
    + assert (Objects.PASS_COMMONS ≠ Objects.expr_simp_cb Objects.simplifier) as Hne
        by discriminate.
      destruct (Hother Hne) as [Hdict Hvalue].
      exists h'. split_and!; [exact Hrun|exact Hlists|exact Hdict|exact Hvalue].
  - destruct (enable_passes_keeps_argument Objects.simplifier_1
                (Objects.expr_simp_cb Objects.simplifier_1) Objects.store_1)
      as (h' & Hrun & Hlists & _ & Hown & _ & _).
    + apply (bool_decide_unpack _). vm_compute. exact I.
    + apply (bool_decide_unpack _). vm_compute. exact I.
    + eexists. reflexivity.
    + exists h'. split_and!; [exact Hrun|exact Hlists|exact (Hown eq_refl)].
Defined.


(** X1 at [PASS_COND], enabled on the public instance [expr_simp], with the
    items in the reverse order. *)
Lemma enable_items_any_order_witness :
  enable_items (reverse (map_to_list Passes.PASS_COND)) (expr_simp_cb Passes.expr_simp) =
  enable_items (map_to_list Passes.PASS_COND) (expr_simp_cb Passes.expr_simp).
Proof. apply enable_items_any_order. apply reverse_Permutation. Defined.

(** X2 at the constant [PASS_COMMONS], enabled on a new engine. *)
Lemma enable_passes_refines_witness :
  ∃ h',
    Objects.enable_passes Objects.simplifier Objects.PASS_COMMONS Objects.store_0 = Some h' ∧
    Objects.sets h' !! Objects.simplified_exprs Objects.simplifier = Some ∅ ∧
    ∀ k, Objects.entry_at h' (Objects.expr_simp_cb Objects.simplifier) k =
           match Objects.entry_at Objects.store_0 Objects.PASS_COMMONS k with
           | Some v =>
               Some (fast_unify
                       (default [] (Objects.entry_at Objects.store_0
                                      (Objects.expr_simp_cb Objects.simplifier) k) ++ v))
           | None =>
               Objects.entry_at Objects.store_0 (Objects.expr_simp_cb Objects.simplifier) k
           end.
Proof.
  apply (enable_passes_refines Objects.simplifier Objects.PASS_COMMONS Objects.store_0).
  - apply (bool_decide_unpack _). vm_compute. exact I.
  - apply (bool_decide_unpack _). vm_compute. exact I.
  - eexists. reflexivity.
Defined.

(** X3 at [c + c]. *)
Lemma run_extends_witness :
  let w := engine_with TEST_FOLDING logging_WARNING in
  ∃ r w', expr_simp run_rule 21 twice_cond w = Some (r, w') ∧ extends w w'.
Proof.
  intros w. returned r w' Hrun. exists r, w'. split; [exact Hrun|].
  destruct (run_extends run_rule 21 twice_cond w r w') as [Hs _]. exact (Hs Hrun).
Defined.

(** X4: the public instances.  [expr_simp] holds the common passes as they
    are; [expr_simp_explicit] holds, for [ExprOp], the common passes followed
    by the two explicit passes, and the common passes for the other classes;
    the three instances start with an empty cache and with rule lists without
    duplicates. *)
Theorem public_instances :
  expr_simp_cb Passes.expr_simp = Passes.PASS_COMMONS ∧
  expr_simp_cb Passes.expr_simp_high_to_explicit = Passes.PASS_HIGH_TO_EXPLICIT ∧
  expr_simp_cb Passes.expr_simp_explicit =
    <[ExprOp := default [] (Passes.PASS_COMMONS !! ExprOp) ++
                [Passes.simp_flags; Passes.simp_ext]]> Passes.PASS_COMMONS ∧
  simplified_exprs Passes.expr_simp = ∅ ∧
  simplified_exprs Passes.expr_simp_high_to_explicit = ∅ ∧
  simplified_exprs Passes.expr_simp_explicit = ∅ ∧
  unified Passes.expr_simp ∧
  unified Passes.expr_simp_high_to_explicit ∧
  unified Passes.expr_simp_explicit.
Proof.
  split_and!; [| | |reflexivity|reflexivity|reflexivity| | |].
  - apply map_eq. intros k. unfold Passes.expr_simp. rewrite enable_passes_lookup.
    destruct (Passes.PASS_COMMONS !! k) as [v|] eqn:Hk; [|done].
    simpl. rewrite lookup_empty. simpl. f_equal. apply fast_unify_id.
    destruct k; vm_compute in Hk; try discriminate; injection Hk as <-;
      apply (bool_decide_unpack _); vm_compute; exact I.
  - apply map_eq. intros k. unfold Passes.expr_simp_high_to_explicit.
    rewrite enable_passes_lookup.
    destruct (Passes.PASS_HIGH_TO_EXPLICIT !! k) as [v|] eqn:Hk; [|done].
    simpl. rewrite lookup_empty. simpl. f_equal. apply fast_unify_id.
    destruct k; vm_compute in Hk; try discriminate; injection Hk as <-;
      apply (bool_decide_unpack _); vm_compute; exact I.
  - apply map_eq. intros k. unfold Passes.expr_simp_explicit.
    rewrite !enable_passes_lookup. simpl. rewrite lookup_empty.
    destruct k; vm_compute; reflexivity.
  - apply enable_passes_unified, init_unified.
  - apply enable_passes_unified, init_unified.
  - do 2 apply enable_passes_unified. apply init_unified.
Qed.

(** X10 at [c + c] on a new engine. *)
Lemma expr_simp_finds_stable_state_witness :
  let w := engine_with TEST_FOLDING logging_WARNING in
  ∃ r w',
    expr_simp run_rule 21 twice_cond w = Some (r, w') ∧
    stable run_rule w' r ∧
    cache_stable run_rule w'.
Proof.
  intros w. returned r w' Hrun. exists r, w'. split; [exact Hrun|].
  destruct (expr_simp_finds_stable_state run_rule 21 twice_cond w r w') as [Hs _].
  - intros f s1 s2 e _. reflexivity.
  - intros e He. exfalso. revert He. apply not_elem_of_empty.
  - exact (Hs Hrun).
Defined.

(** X11 at [c + c]. *)
Lemma call_cache_sound_witness :
  let w := engine_with TEST_FOLDING logging_WARNING in
  ∃ r w',
    call run_rule 21 twice_cond None w = Some (r, w') ∧
    r ∈ simplified_exprs (self w') ∧
    call run_rule 1 r None w' = Some (r, w').
Proof.
  intros w. returned r w' Hrun. exists r, w'.
  destruct (call_cache_sound run_rule 21 twice_cond w r w' Hrun) as [Hin Hhit].
  split_and!; [exact Hrun|exact Hin|].
  exact (Hhit w' (conj eq_refl (conj eq_refl (reflexivity _))) 0%nat None).
Defined.

(** X12 at a second engine made in the store of the example, with
    [PASS_HIGH_TO_EXPLICIT] enabled on it. *)
Lemma new_engine_is_independent_witness :
  ∃ h',
    Objects.enable_passes (Objects.init Objects.store_0).1 Objects.PASS_HIGH_TO_EXPLICIT
      (Objects.init Objects.store_0).2 = Some h' ∧
    Objects.dicts h' !! Objects.expr_simp_cb Objects.simplifier =
      Objects.dicts Objects.store_0 !! Objects.expr_simp_cb Objects.simplifier ∧
    ∀ k, Objects.entry_at h' (Objects.expr_simp_cb (Objects.init Objects.store_0).1) k =
           fast_unify <$> Objects.entry_at Objects.store_0 Objects.PASS_HIGH_TO_EXPLICIT k.
Proof.
  destruct (new_engine_is_independent Objects.store_0 Objects.simplifier
              Objects.PASS_HIGH_TO_EXPLICIT)
    as (_ & _ & _ & _ & _ & h' & Hrun & Hdict & _ & _ & Hnew).
  - apply (bool_decide_unpack _). vm_compute. exact I.
  - apply (bool_decide_unpack _). vm_compute. exact I.
  - eexists. reflexivity.
  - exists h'. split_and!; [exact Hrun|exact Hdict|exact Hnew].
Defined.
